(** * indexd: the block indexer of [src/blockchain.js]

    A shallow embedding of [Blockchain] (connect, connect2ndOrder,
    disconnect, box and the query methods) over a model of the typed
    key-value store it is handed, followed by the properties of the
    indexer stated in the specification.

    JavaScript numbers that the indexer handles (heights, vouts, values,
    sizes, limits) are integers and are modelled as [Z]; where the
    indexer computes with them (the sums, the difference and the quotient
    of the fee pass) the arithmetic is that of binary64 numbers.
    Identifiers (blockId, txId, scId) are the hex strings the RPC layer
    hands over and are modelled as [string]; [undefined] is [None]. *)

From stdpp Require Import gmap strings list fin_maps pretty sorting.
From Stdlib Require SpecFloat.

Local Open Scope Z_scope.

(** ** Block bodies as delivered by [rpcUtil.block] *)

Record input := Input {
  coinbase : bool;
  prevTxId : string;
  in_vout : Z
}.

Record output := Output {
  out_scId : string;
  script : string;
  value : Z;
  out_vout : Z
}.

(** [vsize] is a positive integer in every transaction the node reports,
    so [fee / vsize] is a finite number. *)
Record transaction := Transaction {
  txId : string;
  txBuffer : string;
  ins : list input;
  outs : list output;
  vsize : positive
}.

Record block := Block {
  blk_height : Z;
  blk_size : Z;
  previousblockhash : string;
  nextblockhash : option string;
  transactions : list transaction
}.

(** Errors handed to callbacks, and the one exception the queries can raise. *)
Inductive error :=
  | RpcFailure (blockId : string)
  | HeightMismatch
  | KvFailure
  | MissingTxo (prevTxId : string) (vout : Z).

Inductive exn := TypeError.

(** ** Numbers *)

(** [x | 0]: ToInt32 of an integer. *)
Definition to_int32 (z : Z) : Z := (z + 2 ^ 31) mod 2 ^ 32 - 2 ^ 31.

(** [(x / d) | 0] for integers [x] and [d]: the quotient is truncated
    toward zero, then wrapped to 32 bits. *)
Definition div_bitor0 (x d : Z) : Z := to_int32 (x ÷ d).

(** [data[i]]: [undefined] outside the array. *)
Definition js_index {A} (data : list A) (i : Z) : option A :=
  if decide (i < 0) then None else data !! Z.to_nat i.

(** The amounts the fee pass adds, subtracts and divides are JavaScript
    numbers, IEEE 754 binary64: the Standard Library's specification
    [spec_float] at precision 53 with maximal exponent 1024. [to_number]
    is the number an integer amount or size is handed over as. *)
Abbreviation number := SpecFloat.spec_float.

Definition to_number (z : Z) : number :=
  SpecFloat.binary_normalize 53 1024 z 0 false.

Definition number_add : number → number → number := SpecFloat.SFadd 53 1024.
Definition number_sub : number → number → number := SpecFloat.SFsub 53 1024.
Definition number_div : number → number → number := SpecFloat.SFdiv 53 1024.

(** [Math.floor(x)], read as the integer it is. Infinity and NaN, which
    only amounts or sizes of 2^1023 and more can produce (the amounts of
    the data model are 64-bit), have no integer and read as 0. *)
Definition Math_floor (x : number) : Z :=
  match x with
  | SpecFloat.S754_finite sign m e =>
      if decide (0 ≤ e) then SpecFloat.cond_Zopp sign (Z.pos m * 2 ^ e)
      else SpecFloat.cond_Zopp sign (Z.pos m) `div` 2 ^ (- e)
  | _ => 0
  end.

(** Insertion sort by a boolean order; [arr.sort((a, b) => a - b)] on
    integers is [sort_by Z.leb], and the store's iterators walk their keys
    in [sort_by] order of the key comparison. *)
Fixpoint sort_insert {A} (leb : A → A → bool) (x : A) (l : list A) : list A :=
  match l with
  | [] => [x]
  | y :: l' => if leb x y then x :: l else y :: sort_insert leb x l'
  end.

Definition sort_by {A} (leb : A → A → bool) (l : list A) : list A :=
  foldr (sort_insert leb) [] l.

Definition sort_ascending (l : list Z) : list Z := sort_by Z.leb l.

(** ** The fee summary *)

Record fee_box := FeeBox {
  q1 : option Z;
  median : option Z;
  q3 : option Z
}.

Definition box (data : list Z) : fee_box :=
  if decide (length data = 0%nat) then
    {| q1 := Some 0; median := Some 0; q3 := Some 0 |}
  else
    let quarter := div_bitor0 (Z.of_nat (length data)) 4 in
    let midpoint := div_bitor0 (Z.of_nat (length data)) 2 in
    {| q1 := js_index data quarter;
       median := js_index data midpoint;
       q3 := js_index data (midpoint + quarter) |}.

(** ** The store *)

Record tip_row := TipRow { tip_blockId : string; tip_height : Z }.
Record txo_row := TxoRow { txo_value : Z; txo_script : string }.
Record spent_row := SpentRow { spent_txId : string; spent_vin : Z }.
Record fee_row := FeeRow { fee_fees : fee_box; fee_size : Z }.

(** Script-activity keys [{ scId, height, txId, vout }]. *)
Abbreviation sc_key := (string * Z * string * Z)%type.

(** Modelled from the spec: the typed key-value store behind [this.db]
    and the [types] codec, neither of which is part of the source. One
    finite map per typed index; [get] is a lookup in which an absent key is
    a normal result; an atomic batch is a list of puts and deletes applied
    together by [write], or not at all when the store reports a failure;
    an iterator walks the keys of one index in tuple order from [gte]
    (inclusive) to [lt] (exclusive), bounded by [limit] entries (the spec
    gives no meaning to a negative [limit]; here it yields no entry, and
    no result below depends on that). *)
Record store := Store {
  tipRow : option tip_row;
  txIndex : gmap string Z;
  txoIndex : gmap (string * Z) txo_row;
  spentIndex : gmap (string * Z) spent_row;
  scIndex : gmap sc_key unit;
  feeIndex : gmap Z fee_row
}.

Definition empty_store : store :=
  {| tipRow := None; txIndex := ∅; txoIndex := ∅; spentIndex := ∅;
     scIndex := ∅; feeIndex := ∅ |}.

(** One entry of an atomic batch: [atomic.put(type, key, value)] or
    [atomic.del(type, key)]. *)
Inductive op :=
  | PutSpent (k : string * Z) (v : spent_row)
  | DelSpent (k : string * Z)
  | PutSc (k : sc_key)
  | DelSc (k : sc_key)
  | PutTxo (k : string * Z) (v : txo_row)
  | DelTxo (k : string * Z)
  | PutTx (k : string) (height : Z)
  | DelTx (k : string)
  | PutTip (v : tip_row)
  | PutFee (k : Z) (v : fee_row).

Definition apply_op (s : store) (o : op) : store :=
  match o with
  | PutSpent k v =>
      {| tipRow := tipRow s; txIndex := txIndex s; txoIndex := txoIndex s;
         spentIndex := <[k:=v]> (spentIndex s); scIndex := scIndex s;
         feeIndex := feeIndex s |}
  | DelSpent k =>
      {| tipRow := tipRow s; txIndex := txIndex s; txoIndex := txoIndex s;
         spentIndex := delete k (spentIndex s); scIndex := scIndex s;
         feeIndex := feeIndex s |}
  | PutSc k =>
      {| tipRow := tipRow s; txIndex := txIndex s; txoIndex := txoIndex s;
         spentIndex := spentIndex s; scIndex := <[k:=()]> (scIndex s);
         feeIndex := feeIndex s |}
  | DelSc k =>
      {| tipRow := tipRow s; txIndex := txIndex s; txoIndex := txoIndex s;
         spentIndex := spentIndex s; scIndex := delete k (scIndex s);
         feeIndex := feeIndex s |}
  | PutTxo k v =>
      {| tipRow := tipRow s; txIndex := txIndex s;
         txoIndex := <[k:=v]> (txoIndex s); spentIndex := spentIndex s;
         scIndex := scIndex s; feeIndex := feeIndex s |}
  | DelTxo k =>
      {| tipRow := tipRow s; txIndex := txIndex s;
         txoIndex := delete k (txoIndex s); spentIndex := spentIndex s;
         scIndex := scIndex s; feeIndex := feeIndex s |}
  | PutTx k h =>
      {| tipRow := tipRow s; txIndex := <[k:=h]> (txIndex s);
         txoIndex := txoIndex s; spentIndex := spentIndex s;
         scIndex := scIndex s; feeIndex := feeIndex s |}
  | DelTx k =>
      {| tipRow := tipRow s; txIndex := delete k (txIndex s);
         txoIndex := txoIndex s; spentIndex := spentIndex s;
         scIndex := scIndex s; feeIndex := feeIndex s |}
  | PutTip v =>
      {| tipRow := Some v; txIndex := txIndex s; txoIndex := txoIndex s;
         spentIndex := spentIndex s; scIndex := scIndex s;
         feeIndex := feeIndex s |}
  | PutFee k v =>
      {| tipRow := tipRow s; txIndex := txIndex s; txoIndex := txoIndex s;
         spentIndex := spentIndex s; scIndex := scIndex s;
         feeIndex := <[k:=v]> (feeIndex s) |}
  end.

Definition apply_batch (s : store) (atomic : list op) : store :=
  foldl apply_op s atomic.

(** Results of fallible steps. *)
Inductive result (A : Type) :=
  | Ok (a : A)
  | Err (e : error).
Arguments Ok {A} a.
Arguments Err {A} e.

#[global] Instance result_bind : MBind result := λ A B k r,
  match r with
  | Ok a => k a
  | Err e => Err e
  end.

(** [atomic.write(callback)]: [outcome] is what the store reports for this
    commit; a failed commit leaves the store as it was. *)
Definition write (s : store) (atomic : list op) (outcome : option error)
    : result store :=
  match outcome with
  | Some e => Err e
  | None => Ok (apply_batch s atomic)
  end.

(** Tuple order on script-activity keys. *)
Definition sc_key_compare (a b : sc_key) : comparison :=
  let '(sa, ha, ta, va) := a in
  let '(sb, hb, tb, vb) := b in
  match String.compare sa sb with
  | Eq =>
      match ha ?= hb with
      | Eq =>
          match String.compare ta tb with
          | Eq => va ?= vb
          | c => c
          end
      | c => c
      end
  | c => c
  end.

Definition sc_key_leb (a b : sc_key) : bool :=
  match sc_key_compare a b with Gt => false | _ => true end.

Definition sc_key_ltb (a b : sc_key) : bool :=
  match sc_key_compare a b with Lt => true | _ => false end.

(** [db.iterator(types.scIndex, { gte, lt, limit }, ...)]: the keys the
    visitor is called with, in order. *)
Definition sc_iterator (s : store) (gte lt : sc_key) (limit : Z)
    : list sc_key :=
  take (Z.to_nat limit)
    (filter (λ k, sc_key_leb gte k = true ∧ sc_key_ltb k lt = true)
       (sort_by sc_key_leb (fst <$> map_to_list (scIndex s)))).

(** [db.iterator(types.feeIndex, { gte, limit }, ...)]. *)
Definition fee_iterator (s : store) (gte : Z) (limit : Z)
    : list (Z * fee_row) :=
  take (Z.to_nat limit)
    (filter (λ e, gte ≤ e.1)
       (sort_by (λ a b, a.1 <=? b.1) (map_to_list (feeIndex s)))).

(** ** The indexer *)

(** Arguments of [emitter.emit]. *)
Inductive event :=
  | EvSpent (outpoint : string) (txId : string)
  | EvScript (scId txId txBuffer : string)
  | EvTransaction (txId txBuffer blockId : string)
  | EvBlock (blockId : string) (height : Z).

(** The template string [`${txId}:${vout}`]. *)
Definition outpoint_string (txId : string) (vout : Z) : string :=
  txId +:+ ":" +:+ pretty vout.

(** The batch and the event queue grow together while a block is walked. *)
Abbreviation log := (list op * list event)%type.

Definition log_app (a b : log) : log := (a.1 ++ b.1, a.2 ++ b.2).

Definition log_concat (ls : list log) : log := foldr log_app ([], []) ls.

Definition connect_in (txId : string) (vin : nat) (i : input) : log :=
  if coinbase i then ([], [])
  else
    ([PutSpent (prevTxId i, in_vout i)
        {| spent_txId := txId; spent_vin := Z.of_nat vin |}],
     [EvSpent (outpoint_string (prevTxId i) (in_vout i)) txId]).

Definition connect_out (height : Z) (txId txBuffer : string) (o : output)
    : log :=
  ([PutSc (out_scId o, height, txId, out_vout o);
    PutTxo (txId, out_vout o)
      {| txo_value := value o; txo_script := script o |}],
   [EvScript (out_scId o) txId txBuffer]).

Definition connect_tx (blockId : string) (height : Z) (tx : transaction)
    : log :=
  log_app (log_concat (imap (connect_in (txId tx)) (ins tx)))
    (log_app
       (log_concat (connect_out height (txId tx) (txBuffer tx) <$> outs tx))
       ([PutTx (txId tx) height],
        [EvTransaction (txId tx) (txBuffer tx) blockId])).

Definition connect_log (blockId : string) (height : Z) (b : block) : log :=
  log_app (log_concat (connect_tx blockId height <$> transactions b))
    ([PutTip {| tip_blockId := blockId; tip_height := height |}],
     [EvBlock blockId height]).

(** The sub-tasks of one transaction: the values of the outputs its
    non-coinbase inputs consume, summed; the first read that fails or
    finds no row fails the transaction. [read_fails txId vout] tells
    whether the store answers [get(types.txoIndex, { txId, vout })] with
    an error. *)
Fixpoint inAccum (read_fails : string → Z → bool) (s : store)
    (inputs : list input) (acc : number) : result number :=
  match inputs with
  | [] => Ok acc
  | i :: rest =>
      if coinbase i then inAccum read_fails s rest acc
      else if read_fails (prevTxId i) (in_vout i) then Err KvFailure
      else
        match txoIndex s !! (prevTxId i, in_vout i) with
        | None => Err (MissingTxo (prevTxId i) (in_vout i))
        | Some txo =>
            inAccum read_fails s rest
              (number_add acc (to_number (txo_value txo)))
        end
  end.

Definition outAccum (outputs : list output) : number :=
  foldl (λ acc o, number_add acc (to_number (value o))) (to_number 0) outputs.

Definition feeRate (read_fails : string → Z → bool) (s : store)
    (tx : transaction) : result Z :=
  if existsb coinbase (ins tx) then Ok 0
  else
    inA ← inAccum read_fails s (ins tx) (to_number 0);
    let fee := number_sub inA (outAccum (outs tx)) in
    Ok (Math_floor (number_div fee (to_number (Z.pos (vsize tx))))).

Fixpoint feeRates (read_fails : string → Z → bool) (s : store)
    (txs : list transaction) : result (list Z) :=
  match txs with
  | [] => Ok []
  | tx :: rest =>
      r ← feeRate read_fails s tx;
      rs ← feeRates read_fails s rest;
      Ok (r :: rs)
  end.

Definition connect2ndOrder (read_fails : string → Z → bool) (s : store)
    (fee_commit : option error) (blockId : string) (b : block)
    : result store :=
  rates ← feeRates read_fails s (transactions b);
  write s
    [PutFee (blk_height b)
       {| fee_fees := box (sort_ascending rates); fee_size := blk_size b |}]
    fee_commit.

(** What one call leaves behind: the store, the arguments of the
    completion callback, and the events emitted afterwards. *)
Record outcome := Outcome {
  out_store : store;
  out_err : option error;
  out_value : option string;
  out_emitted : list event
}.

Section Indexer.

(** [rpcUtil.block(this.rpc, blockId, ...)]. *)
Variable rpc : string → result block.

(** Which reads of TxoIndex the store answers with an error. *)
Variable read_fails : string → Z → bool.

Definition connect (primary_commit fee_commit : option error) (s : store)
    (blockId : string) (height : Z) : outcome :=
  match rpc blockId with
  | Err err => Outcome s (Some err) None []
  | Ok b =>
      if decide (height ≠ blk_height b) then
        Outcome s (Some HeightMismatch) None []
      else
        let '(atomic, events) := connect_log blockId height b in
        match write s atomic primary_commit with
        | Err err => Outcome s (Some err) None []
        | Ok s1 =>
            match connect2ndOrder read_fails s1 fee_commit blockId b with
            | Err err => Outcome s1 (Some err) (nextblockhash b) events
            | Ok s2 => Outcome s2 None (nextblockhash b) events
            end
        end
  end.

Definition disconnect_tx (height : Z) (tx : transaction) : list op :=
  concat ((λ i : input,
             if coinbase i then []
             else [DelSpent (prevTxId i, in_vout i)]) <$> ins tx)
  ++ concat (imap (λ (vout : nat) (o : output),
               [DelSc (out_scId o, height, txId tx, Z.of_nat vout);
                DelTxo (txId tx, Z.of_nat vout)]) (outs tx))
  ++ [DelTx (txId tx)].

Definition disconnect_batch (b : block) : list op :=
  concat (disconnect_tx (blk_height b) <$> transactions b)
  ++ [PutTip {| tip_blockId := previousblockhash b;
                tip_height := blk_height b |}].

Definition disconnect (commit : option error) (s : store)
    (blockId : string) : outcome :=
  match rpc blockId with
  | Err err => Outcome s (Some err) None []
  | Ok b =>
      match write s (disconnect_batch b) commit with
      | Err err => Outcome s (Some err) None []
      | Ok s1 => Outcome s1 None None []
      end
  end.

End Indexer.

(** ** Queries *)

(** A query either hands its answer to the callback or raises. *)
Inductive completion (A : Type) :=
  | Returns (a : A)
  | Throws (e : exn).
Arguments Returns {A} a.
Arguments Throws {A} e.

Definition ZERO64 : string :=
  "0000000000000000000000000000000000000000000000000000000000000000".

Definition blockHeightByTransactionId (s : store) (txId : string)
    : option Z :=
  txIndex s !! txId.

Record fee_entry := FeeEntry {
  fe_height : Z;
  fe_fees : fee_box;
  fe_size : Z
}.

(** [result.height] is read from whatever [get(types.tip)] answered. *)
Definition fees (s : store) (n : Z) : completion (list fee_entry) :=
  match tipRow s with
  | None => Throws TypeError
  | Some result =>
      let maxHeight := tip_height result in
      Returns
        ((λ e : Z * fee_row,
            {| fe_height := e.1; fe_fees := fee_fees e.2;
               fe_size := fee_size e.2 |})
           <$> fee_iterator s (maxHeight - (n - 1)) n)
  end.

Definition seenScriptId (s : store) (scId : string) : bool :=
  foldl (λ _ _, true) false
    (sc_iterator s (scId, 0, ZERO64, 0) (scId, 4294967295, ZERO64, 0) 1).

Definition spentFromTxo (s : store) (txId : string) (vout : Z)
    : option spent_row :=
  spentIndex s !! (txId, vout).

(** [tip && tip.blockId] *)
Definition tip (s : store) : completion (option string) :=
  Returns (tip_blockId <$> tipRow s).

Definition tipHeight (s : store) : completion (option Z) :=
  Returns (tip_height <$> tipRow s).

(** The [limit] argument of the script scans: omitted, a number, or an
    [[offset, end]] array. *)
Inductive limit_arg :=
  | LimitOmitted
  | LimitNumber (n : Z)
  | LimitPair (offset end_ : Z).

(** [limit || dflt] *)
Definition or_default (limit : option Z) (dflt : Z) : Z :=
  match limit with
  | None => dflt
  | Some n => if decide (n = 0) then dflt else n
  end.

Record txo_ref := TxoRef {
  ref_txId : string;
  ref_vout : Z;
  ref_scId : string;
  ref_height : Z
}.

Record position := Position {
  pos_height : Z;
  pos_offset : Z
}.

(** The locals the visitor of [__txosListByScriptId] updates. *)
Record walk := Walk {
  results : list txo_ref;
  count : Z;
  maxHeight : Z
}.

Definition visit (scId : string) (offset : Z) (w : walk) (txo : sc_key)
    : walk :=
  let count' := count w + 1 in
  if decide (count' < offset) then
    {| results := results w; count := count'; maxHeight := maxHeight w |}
  else
    let '(_, height, txId, vout) := txo in
    {| results := results w ++ [TxoRef txId vout scId height];
       count := count';
       maxHeight := if decide (height > maxHeight w) then height
                    else maxHeight w |}.

Definition __txosListByScriptId (s : store) (scId : string) (height : Z)
    (limit : limit_arg) : list txo_ref * position :=
  let offset := match limit with LimitPair o _ => o | _ => 0 end in
  let limit1 :=
    match limit with
    | LimitPair o e => Some (e - o)
    | LimitNumber n => Some n
    | LimitOmitted => None
    end in
  let limit2 := or_default limit1 10000 in
  let w :=
    foldl (visit scId offset)
      {| results := []; count := 0; maxHeight := height |}
      (sc_iterator s (scId, height, ZERO64, 0)
         (scId, 4294967295, ZERO64, 0) limit2) in
  (results w, {| pos_height := height; pos_offset := count w |}).

Definition transactionIdsByScriptId (s : store) (scId : string)
    (height : Z) (limit : limit_arg) : gset string * position :=
  let '(txos, position) := __txosListByScriptId s scId height limit in
  let spents := (λ txo, spentFromTxo s (ref_txId txo) (ref_vout txo)) <$> txos in
  let txIdSet :=
    foldl (λ (set : gset string) spent,
             match spent with
             | None => set
             | Some sp => {[spent_txId sp]} ∪ set
             end) ∅ spents in
  let txIdSet :=
    foldl (λ (set : gset string) txo, {[ref_txId txo]} ∪ set) txIdSet txos in
  (txIdSet, position).

Definition txosByScriptId (s : store) (scId : string) (height : Z)
    (limit : option Z) : gmap string txo_ref :=
  let limit' := or_default limit 10000 in
  foldl (λ (resultMap : gmap string txo_ref) (txo : sc_key),
           let '(_, h, txId, vout) := txo in
           <[outpoint_string txId vout := TxoRef txId vout scId h]> resultMap)
    ∅
    (sc_iterator s (scId, height, ZERO64, 0)
       (scId, 4294967295, ZERO64, 0) limit').

Definition txoByTxo (s : store) (txId : string) (vout : Z) : option txo_row :=
  txoIndex s !! (txId, vout).

(** [rpcUtil.blockIdAtHeight(this.rpc, height, callback)] is the
    parameter [blockIdAtHeight], and [row_read_fails] says for which
    txIds the read of TxIndex fails; that error is handed on. A
    transaction TxIndex does not know is answered with an absent value,
    without asking the node. *)
Definition blockIdByTransactionId (blockIdAtHeight : Z → result string)
    (row_read_fails : string → bool) (s : store) (txId : string)
    : result (option string) :=
  if row_read_fails txId then Err KvFailure
  else match txIndex s !! txId with
       | None => Ok None
       | Some height => id ← blockIdAtHeight height; Ok (Some id)
       end.

(** Modelled from the spec: the label index [types.lbIndex], one more
    typed index of the store, with keys [{ scId, label }] and no value;
    its batch entries are applied in order like those of the other
    indexes. *)
Inductive label_op :=
  | DelLabel (k : string * string)
  | PutLabel (k : string * string).

Definition apply_label_op (lbIndex : gmap (string * string) unit)
    (o : label_op) : gmap (string * string) unit :=
  match o with
  | DelLabel k => delete k lbIndex
  | PutLabel k => <[k:=()]> lbIndex
  end.

Definition addLabel (commit : option error)
    (lbIndex : gmap (string * string) unit) (scId label : string)
    : gmap (string * string) unit * option error :=
  let atomic := [DelLabel (scId, label); PutLabel (scId, label)] in
  match commit with
  | Some e => (lbIndex, Some e)
  | None => (foldl apply_label_op lbIndex atomic, None)
  end.

(** ** Worked blocks *)

(** A store that answers every read. *)
Definition reads_ok : string → Z → bool := λ _ _, false.

Module Scenario.

(** A coinbase-only block at height 0 and a block at height 1 that
    spends its output. *)
Definition tx0 : transaction :=
  {| txId := "tx0"; txBuffer := "raw0";
     ins := [Input true "" 0];
     outs := [Output "s1" "script0" 5000000000 0];
     vsize := 100%positive |}.

Definition b0 : block :=
  {| blk_height := 0; blk_size := 200; previousblockhash := "genesis";
     nextblockhash := Some "b1"; transactions := [tx0] |}.

Definition tx1 : transaction :=
  {| txId := "tx1"; txBuffer := "raw1";
     ins := [Input false "tx0" 0];
     outs := [Output "s2" "script1" 4999990000 0];
     vsize := 250%positive |}.

Definition b1 : block :=
  {| blk_height := 1; blk_size := 300; previousblockhash := "b0";
     nextblockhash := None; transactions := [tx1] |}.

Definition rpc (blockId : string) : result block :=
  if decide (blockId = "b0") then Ok b0
  else if decide (blockId = "b1") then Ok b1
  else Err (RpcFailure blockId).

Definition s0 : store := out_store (connect rpc reads_ok None None empty_store "b0" 0).
Definition s1 : store := out_store (connect rpc reads_ok None None s0 "b1" 1).

(** Five outputs paying to the script "S", at heights 10 to 40. *)
Definition s_scan : store :=
  apply_batch empty_store
    [PutSc ("S", 10, "ta", 0); PutSc ("S", 20, "tb", 0);
     PutSc ("S", 30, "tc", 0); PutSc ("S", 30, "tc", 1);
     PutSc ("S", 40, "td", 0); PutSc ("T", 15, "te", 0)].

End Scenario.

(** ** Vocabulary of the statements *)

(** The answer built from one walked entry. *)
Definition txo_of_key (scId : string) (k : sc_key) : txo_ref :=
  let '(_, height, txId, vout) := k in TxoRef txId vout scId height.

(** The entries a call walks. *)
Definition walked (s : store) (scId : string) (height : Z) (limit : Z)
    : list sc_key :=
  sc_iterator s (scId, height, ZERO64, 0) (scId, 4294967295, ZERO64, 0) limit.

(** The key an entry of a batch writes, across the typed indexes. *)
Inductive op_key :=
  | KSpent (k : string * Z)
  | KSc (k : sc_key)
  | KTxo (k : string * Z)
  | KTx (k : string)
  | KTip
  | KFee (k : Z).

#[global] Instance op_key_eq_dec : EqDecision op_key.
Proof. solve_decision. Defined.

Definition key_of (o : op) : op_key :=
  match o with
  | PutSpent k _ | DelSpent k => KSpent k
  | PutSc k | DelSc k => KSc k
  | PutTxo k _ | DelTxo k => KTxo k
  | PutTx k _ | DelTx k => KTx k
  | PutTip _ => KTip
  | PutFee k _ => KFee k
  end.

Definition is_del (o : op) : bool :=
  match o with
  | DelSpent _ | DelSc _ | DelTxo _ | DelTx _ => true
  | _ => false
  end.

(** What the store holds under a key. *)
Inductive cell :=
  | CSpent (v : spent_row)
  | CSc
  | CTxo (v : txo_row)
  | CTx (height : Z)
  | CTip (v : tip_row)
  | CFee (v : fee_row).

Definition read (s : store) (k : op_key) : option cell :=
  match k with
  | KSpent k => CSpent <$> spentIndex s !! k
  | KSc k => (λ _, CSc) <$> scIndex s !! k
  | KTxo k => CTxo <$> txoIndex s !! k
  | KTx k => CTx <$> txIndex s !! k
  | KTip => CTip <$> tipRow s
  | KFee k => CFee <$> feeIndex s !! k
  end.

(** The store has no row yet under the TxIndex, TxoIndex, SpentIndex or
    ScriptIndex key that [o] puts. *)
Definition absent (s : store) (o : op) : Prop :=
  match o with
  | PutSpent k _ => spentIndex s !! k = None
  | PutSc k => scIndex s !! k = None
  | PutTxo k _ => txoIndex s !! k = None
  | PutTx k _ => txIndex s !! k = None
  | _ => True
  end.

(** None of the rows CONNECT puts for the block exists in the store. *)
Definition fresh_for (s : store) (blockId : string) (b : block) : Prop :=
  Forall (absent s) (connect_log blockId (blk_height b) b).1.

(** Every output of the block carries its position in [outs] as [vout],
    as the outputs decoded by the RPC layer do. *)
Definition vouts_positional (b : block) : Prop :=
  Forall (λ tx, out_vout <$> outs tx = Z.of_nat <$> seq 0 (length (outs tx)))
    (transactions b).

(** The keys one input and one output contribute to a batch. *)
Definition in_keys (i : input) : list op_key :=
  if coinbase i then [] else [KSpent (prevTxId i, in_vout i)].

Definition out_keys (height : Z) (txId : string) (vout : Z) (o : output)
    : list op_key :=
  [KSc (out_scId o, height, txId, vout); KTxo (txId, vout)].

(** What an entry of a batch leaves under its key. *)
Definition op_cell (o : op) : option cell :=
  match o with
  | PutSpent _ v => Some (CSpent v)
  | PutSc _ => Some CSc
  | PutTxo _ v => Some (CTxo v)
  | PutTx _ h => Some (CTx h)
  | PutTip v => Some (CTip v)
  | PutFee _ v => Some (CFee v)
  | DelSpent _ | DelSc _ | DelTxo _ | DelTx _ => None
  end.

(** The events of one transaction and of one block, in emission order. *)
Definition tx_events (blockId : string) (tx : transaction) : list event :=
  ((λ i, EvSpent (outpoint_string (prevTxId i) (in_vout i)) (txId tx))
     <$> filter (λ i, coinbase i = false) (ins tx))
  ++ ((λ o, EvScript (out_scId o) (txId tx) (txBuffer tx)) <$> outs tx)
  ++ [EvTransaction (txId tx) (txBuffer tx) blockId].

Definition block_events (blockId : string) (b : block) : list event :=
  concat (tx_events blockId <$> transactions b)
  ++ [EvBlock blockId (blk_height b)].

(** Sum of a list of amounts. *)
Definition total (l : list Z) : Z := foldr Z.add 0 l.

(** The value of the output an input consumes, as TxoIndex has it. *)
Definition consumed_value (s : store) (i : input) : Z :=
  from_option txo_value 0 (txoIndex s !! (prevTxId i, in_vout i)).

(** The binary64 number of a non-zero integer below 2^53: sign, a
    mantissa of exactly 53 bits, and the exponent that goes with it. *)
Definition canon (s : bool) (p : positive) : number :=
  SpecFloat.S754_finite s
    (Z.to_pos (Z.pos p * 2 ^ (53 - Z.pos (SpecFloat.digits2_pos p))))
    (Z.pos (SpecFloat.digits2_pos p) - 53).

(** Lexicographic combination of two comparisons, as [sc_key_compare]
    and [String.compare] nest them. *)
Definition lex (c d : comparison) : comparison :=
  match c with
  | Eq => d
  | _ => c
  end.

(** ** The fee summary picks *)

Lemma to_int32_small (z : Z) : 0 ≤ z < 2 ^ 31 → to_int32 z = z.
Proof.
  intros Hz. unfold to_int32.
  rewrite Z.mod_small; lia.
Qed.

Lemma div_bitor0_length (n : nat) (d : nat) :
  (2 ≤ d)%nat → Z.of_nat n < 2 ^ 32 →
  div_bitor0 (Z.of_nat n) (Z.of_nat d) = Z.of_nat (n / d).
Proof.
  intros Hd Hn. unfold div_bitor0.
  rewrite Z.quot_div_nonneg by lia.
  rewrite <- Nat2Z.inj_div.
  apply to_int32_small. split; [lia|].
  assert (n / d ≤ n / 2)%nat by (apply Nat.div_le_compat_l; lia).
  assert (2 * (n / 2) ≤ n)%nat by (apply Nat.Div0.mul_div_le).
  lia.
Qed.

Lemma js_index_nat {A} (data : list A) (i : nat) :
  js_index data (Z.of_nat i) = data !! i.
Proof.
  unfold js_index. case_decide; [lia|]. by rewrite Nat2Z.id.
Qed.

Lemma box_nonempty (data : list Z) :
  data ≠ [] → Z.of_nat (length data) < 2 ^ 32 →
  box data =
    {| q1 := data !! (length data / 4)%nat;
       median := data !! (length data / 2)%nat;
       q3 := data !! (length data / 2 + length data / 4)%nat |}.
Proof.
  intros Hne Hlen. unfold box.
  case_decide as H0; [by destruct data|].
  change 4 with (Z.of_nat 4). change 2 with (Z.of_nat 2).
  rewrite !div_bitor0_length by lia.
  rewrite <- Nat2Z.inj_add. by rewrite !js_index_nat.
Qed.

Lemma quartile_picks_in_range (n : nat) :
  (0 < n)%nat → (n / 4 < n ∧ n / 2 < n ∧ n / 2 + n / 4 < n)%nat.
Proof.
  intros Hn.
  pose proof (Nat.Div0.mul_div_le n 4).
  pose proof (Nat.Div0.mul_div_le n 2).
  pose proof (Nat.Div0.div_le_mono 1 n 1).
  assert (n / 4 ≤ n / 2 / 2)%nat as Hq.
  { rewrite Nat.Div0.div_div. by change (2 * 2)%nat with 4%nat. }
  pose proof (Nat.Div0.mul_div_le (n / 2) 2).
  lia.
Qed.

(** C6. For a fee-rate sample of length [n] (a JavaScript array, so
    [n < 2^32]), with [q = n / 4] and [m = n / 2] rounded down: an empty
    sample is summarised as (0, 0, 0); a non-empty one as
    (sample[q], sample[m], sample[m + q]), all three being elements of the
    sample; and for [n = 1] all three are [sample[0]]. The picks do not
    depend on the sample being sorted, so the statement covers the sorted
    sample that [connect2ndOrder] passes. *)
Theorem box_quartile_picks (sample : list Z) :
  Z.of_nat (length sample) < 2 ^ 32 →
  let n := length sample in
  let q := (n / 4)%nat in
  let m := (n / 2)%nat in
  (n = 0%nat → box sample = {| q1 := Some 0; median := Some 0; q3 := Some 0 |})
  ∧ (n ≠ 0%nat →
       ∃ a b c,
         sample !! q = Some a ∧ sample !! m = Some b
         ∧ sample !! (m + q)%nat = Some c
         ∧ box sample = {| q1 := Some a; median := Some b; q3 := Some c |})
  ∧ (n = 1%nat →
       ∃ x, sample !! 0%nat = Some x
         ∧ box sample = {| q1 := Some x; median := Some x; q3 := Some x |}).
Proof.
  intros Hlen n q m. split; [|split].
  - intros Hn. unfold box. by rewrite decide_True.
  - intros Hn.
    destruct (quartile_picks_in_range n) as (Hq & Hm & Hmq); [lia|].
    destruct (lookup_lt_is_Some_2 sample q Hq) as [a Ha].
    destruct (lookup_lt_is_Some_2 sample m Hm) as [b Hb].
    destruct (lookup_lt_is_Some_2 sample (m + q) Hmq) as [c Hc].
    exists a, b, c. repeat split; try done.
    rewrite box_nonempty; [|by destruct sample|done].
    fold n q m. by rewrite Ha, Hb, Hc.
  - intros Hn. destruct sample as [|x [|y l]]; try done.
    by exists x.
Qed.

Lemma box_quartile_picks_witness :
  box [3; 5; 8; 13; 21] =
    {| q1 := Some 5; median := Some 8; q3 := Some 13 |}.
Proof.
  destruct (box_quartile_picks [3; 5; 8; 13; 21]) as (_ & Hpick & _);
    [simpl; lia|].
  destruct Hpick as (a & b & c & Ha & Hb & Hc & Hbox); [done|].
  simpl in Ha, Hb, Hc. congruence.
Defined.

(** The sample handed to [box] is sorted: [sort_ascending] orders it and
    keeps its elements. *)
Lemma sort_insert_sorted (x : Z) (l : list Z) :
  Sorted Z.le l → Sorted Z.le (sort_insert Z.leb x l).
Proof.
  induction 1 as [|y l Hs IH Hhd]; simpl.
  - repeat constructor.
  - destruct (Z.leb_spec x y).
    + constructor; [by constructor|by constructor].
    + constructor; [done|].
      destruct Hhd as [|z l Hyz]; simpl.
      * constructor. lia.
      * destruct (Z.leb_spec x z); constructor; lia.
Qed.

Lemma sort_ascending_sorted (l : list Z) : Sorted Z.le (sort_ascending l).
Proof.
  unfold sort_ascending, sort_by.
  induction l as [|x l IH]; simpl; [constructor|].
  by apply sort_insert_sorted.
Qed.

Lemma sort_insert_perm (x : Z) (l : list Z) : sort_insert Z.leb x l ≡ₚ x :: l.
Proof.
  induction l as [|y l IH]; simpl; [done|].
  destruct (x <=? y); [done|].
  rewrite IH. apply Permutation_swap.
Qed.

Lemma sort_ascending_perm (l : list Z) : sort_ascending l ≡ₚ l.
Proof.
  unfold sort_ascending, sort_by.
  induction l as [|x l IH]; simpl; [done|].
  by rewrite sort_insert_perm, IH.
Qed.

(** C7 as stated fails: for the sorted sample [1, 2, 3, 4] the summary is
    (2, 3, 4), not (1, 3, 3). *)
Lemma box_four_not_a_c_c :
  Sorted Z.le [1; 2; 3; 4]
  ∧ box [1; 2; 3; 4] ≠ {| q1 := Some 1; median := Some 3; q3 := Some 3 |}.
Proof. split; [repeat constructor; lia|discriminate]. Qed.

(** C7, amended. For a sample of length 4, [a, b, c, d], the summary is
    (q1, median, q3) = (b, c, d): the picks are at the zero-based
    positions 1, 2 and 3. *)
Theorem box_four (a b c d : Z) :
  box [a; b; c; d] = {| q1 := Some b; median := Some c; q3 := Some d |}.
Proof. reflexivity. Qed.

(** ** CONNECT: the height gate and the event queue *)

(** C8. When the body fetched for [blockId] has a height other than the
    expected one, CONNECT hands HeightMismatch to its callback, leaves
    every index of the store as it was, and emits no event. *)
Theorem connect_height_mismatch (rpc : string → result block)
    (read_fails : string → Z → bool)
    (primary_commit fee_commit : option error) (s : store)
    (blockId : string) (expectedHeight : Z) (b : block) :
  rpc blockId = Ok b →
  blk_height b ≠ expectedHeight →
  connect rpc read_fails primary_commit fee_commit s blockId expectedHeight =
    {| out_store := s; out_err := Some HeightMismatch; out_value := None;
       out_emitted := [] |}.
Proof.
  intros Hrpc Hne. unfold connect. rewrite Hrpc.
  by rewrite decide_True by congruence.
Qed.

Lemma connect_height_mismatch_witness :
  connect Scenario.rpc reads_ok None None Scenario.s0 "b1" 5 =
    {| out_store := Scenario.s0; out_err := Some HeightMismatch;
       out_value := None; out_emitted := [] |}.
Proof.
  apply (connect_height_mismatch Scenario.rpc reads_ok None None Scenario.s0 "b1" 5
           Scenario.b1).
  - reflexivity.
  - simpl. lia.
Defined.

(** The other failures before the fee pass keep the queue unsent too. *)
Lemma connect_rpc_failure (rpc : string → result block)
    (read_fails : string → Z → bool)
    (primary_commit fee_commit : option error) (s : store)
    (blockId : string) (height : Z) (err : error) :
  rpc blockId = Err err →
  connect rpc read_fails primary_commit fee_commit s blockId height =
    Outcome s (Some err) None [].
Proof. intros Hrpc. unfold connect. by rewrite Hrpc. Qed.

Lemma connect_primary_commit_failure (rpc : string → result block)
    (read_fails : string → Z → bool)
    (fee_commit : option error) (s : store)
    (blockId : string) (height : Z) (err : error) :
  out_store (connect rpc read_fails (Some err) fee_commit s blockId height) = s
  ∧ out_emitted (connect rpc read_fails (Some err) fee_commit s blockId height) = [].
Proof.
  unfold connect. destruct (rpc blockId) as [b|e]; [|done].
  case_decide; [done|]. by destruct (connect_log blockId height b).
Qed.

(** Once the primary batch is committed the queue is sent, whatever the
    fee pass answers. *)
Lemma connect_emits_after_primary_commit (rpc : string → result block)
    (read_fails : string → Z → bool)
    (fee_commit : option error) (s : store) (blockId : string) (b : block) :
  rpc blockId = Ok b →
  out_emitted (connect rpc read_fails None fee_commit s blockId (blk_height b)) =
    (connect_log blockId (blk_height b) b).2.
Proof.
  intros Hrpc. unfold connect. rewrite Hrpc.
  rewrite decide_False by (intros H; by apply H).
  destruct (connect_log blockId (blk_height b) b) as [atomic events].
  simpl. by destruct (connect2ndOrder _ _ _ _).
Qed.

(** C2, evaluated where it fails. Connecting block "b1", whose one input
    spends tx0:0, on a store that has no such output stops in the fee pass
    with MissingTxo, and on a store that has it but whose fee batch fails
    to commit stops with that failure; in both runs the four queued events
    are emitted all the same. *)
Theorem connect_emits_despite_fee_pass_error :
  let missing := connect Scenario.rpc reads_ok None None empty_store "b1" 1 in
  let failed := connect Scenario.rpc reads_ok None (Some KvFailure) Scenario.s0 "b1" 1 in
  out_err missing = Some (MissingTxo "tx0" 0)
  ∧ out_emitted missing =
      [EvSpent "tx0:0" "tx1"; EvScript "s2" "tx1" "raw1";
       EvTransaction "tx1" "raw1" "b1"; EvBlock "b1" 1]
  ∧ out_err failed = Some KvFailure
  ∧ feeIndex (out_store failed) !! 1 = None
  ∧ out_emitted failed =
      [EvSpent "tx0:0" "tx1"; EvScript "s2" "tx1" "raw1";
       EvTransaction "tx1" "raw1" "b1"; EvBlock "b1" 1].
Proof. vm_compute. by repeat split. Qed.

(** ** DISCONNECT and the tip *)

Lemma apply_batch_app (s : store) (ops1 ops2 : list op) :
  apply_batch s (ops1 ++ ops2) = apply_batch (apply_batch s ops1) ops2.
Proof. apply foldl_app. Qed.

(** A committed DISCONNECT leaves the parent's id in the tip, paired with
    the height of the block it removed. *)
Lemma disconnect_tip (rpc : string → result block) (s : store)
    (blockId : string) (b : block) :
  rpc blockId = Ok b →
  tipRow (out_store (disconnect rpc None s blockId)) =
    Some {| tip_blockId := previousblockhash b; tip_height := blk_height b |}.
Proof.
  intros Hrpc. unfold disconnect. rewrite Hrpc. simpl.
  unfold disconnect_batch. by rewrite apply_batch_app.
Qed.

(** C1, evaluated where it fails. After blocks "b0" (height 0) and "b1"
    (height 1) are connected, a successful DISCONNECT of "b1" leaves the
    tip at block "b0" with height 1, where the specification has
    height 0. *)
Theorem disconnect_tip_keeps_height :
  let after := disconnect Scenario.rpc None Scenario.s1 "b1" in
  out_err after = None
  ∧ tipRow Scenario.s0 = Some {| tip_blockId := "b0"; tip_height := 0 |}
  ∧ tipRow Scenario.s1 = Some {| tip_blockId := "b1"; tip_height := 1 |}
  ∧ tipRow (out_store after) = Some {| tip_blockId := "b0"; tip_height := 1 |}.
Proof. vm_compute. by repeat split. Qed.

(** ** Queries *)

(** C9. On a store without a Tip record, [fees] raises instead of
    answering (the height of the absent record is read), while [tip] and
    [tipHeight] answer with an absent value. *)
Theorem fees_needs_tip (s : store) (n : Z) :
  tipRow s = None →
  fees s n = Throws TypeError
  ∧ tip s = Returns None
  ∧ tipHeight s = Returns None.
Proof. intros Htip. unfold fees, tip, tipHeight. by rewrite Htip. Qed.

Lemma fees_needs_tip_witness :
  fees empty_store 3 = Throws TypeError
  ∧ tip empty_store = Returns None
  ∧ tipHeight empty_store = Returns None.
Proof. apply (fees_needs_tip empty_store 3). reflexivity. Defined.

(** With a Tip record [fees] does answer. *)
Lemma fees_with_tip (s : store) (n : Z) (t : tip_row) :
  tipRow s = Some t → ∃ rows, fees s n = Returns rows.
Proof. intros Htip. unfold fees. rewrite Htip. eauto. Qed.

(** *** The walk of [__txosListByScriptId] *)

Lemma visit_count (scId : string) (offset : Z) (w : walk) (k : sc_key) :
  count (visit scId offset w k) = count w + 1.
Proof.
  unfold visit. case_decide; [done|]. by destruct k as [[[? ?] ?] ?].
Qed.

Lemma walk_count (scId : string) (offset : Z) (l : list sc_key) (w : walk) :
  count (foldl (visit scId offset) w l) = count w + Z.of_nat (length l).
Proof.
  revert w. induction l as [|k l IH]; intros w; simpl; [lia|].
  rewrite IH, visit_count. lia.
Qed.

(** The visitor keeps an entry unless its one-based rank is below
    [offset]: the first [offset - 1] entries are dropped. *)
Lemma walk_results (scId : string) (offset : Z) (l : list sc_key) (w : walk) :
  results (foldl (visit scId offset) w l) =
    results w ++ (txo_of_key scId <$> drop (Z.to_nat (offset - 1 - count w)) l).
Proof.
  revert w. induction l as [|k l IH]; intros w; simpl.
  - by rewrite drop_nil, app_nil_r.
  - rewrite IH, visit_count. unfold visit. case_decide as Hlt; simpl.
    + replace (Z.to_nat (offset - 1 - count w))
        with (S (Z.to_nat (offset - 1 - (count w + 1)))) by lia.
      done.
    + replace (Z.to_nat (offset - 1 - count w)) with 0%nat by lia.
      replace (Z.to_nat (offset - 1 - (count w + 1))) with 0%nat by lia.
      destruct k as [[[sc h] t] v]; simpl.
      by rewrite <- app_assoc.
Qed.

(** The position handed back carries the [height] argument and the number
    of entries walked; the tracked maximum does not reach it. *)
Lemma txosList_position (s : store) (scId : string) (height : Z)
    (limit : limit_arg) :
  ∃ lim,
    (__txosListByScriptId s scId height limit).2 =
      {| pos_height := height;
         pos_offset := Z.of_nat (length (walked s scId height lim)) |}.
Proof.
  unfold __txosListByScriptId. simpl.
  eexists. rewrite walk_count. simpl. reflexivity.
Qed.

Lemma txosList_pair (s : store) (scId : string) (height offset end_ : Z) :
  end_ - offset ≠ 0 →
  (__txosListByScriptId s scId height (LimitPair offset end_)).1 =
    txo_of_key scId
      <$> drop (Z.to_nat (offset - 1)) (walked s scId height (end_ - offset)).
Proof.
  intros Hne. unfold __txosListByScriptId, or_default. simpl.
  rewrite decide_False by done.
  rewrite walk_results. simpl. by rewrite Z.sub_0_r.
Qed.

(** C4, evaluated where it fails. Over five entries of script "S" at
    heights 10, 20, 30, 30 and 40, a scan from height 0 walks all five and
    hands back the position (height 0, offset 5): the height is the
    [height] argument, not the maximum height 40 among the entries
    walked. [transactionIdsByScriptId] passes the same position on. *)
Theorem position_height_not_max_seen :
  ref_height <$> (__txosListByScriptId Scenario.s_scan "S" 0 LimitOmitted).1
    = [10; 20; 30; 30; 40]
  ∧ (__txosListByScriptId Scenario.s_scan "S" 0 LimitOmitted).2
    = {| pos_height := 0; pos_offset := 5 |}
  ∧ (transactionIdsByScriptId Scenario.s_scan "S" 0 LimitOmitted).2
    = {| pos_height := 0; pos_offset := 5 |}.
Proof. vm_compute. by repeat split. Qed.

(** C5, evaluated where it fails. Over the same five entries, the pair
    [2, 5] walks three entries (5 - 2) and drops one (2 - 1): it answers
    with the entries at positions 1 and 2, where the specification has the
    entries at positions 2, 3 and 4. *)
Theorem pager_drops_offset_minus_one :
  (__txosListByScriptId Scenario.s_scan "S" 0 LimitOmitted).1 =
    [TxoRef "ta" 0 "S" 10; TxoRef "tb" 0 "S" 20; TxoRef "tc" 0 "S" 30;
     TxoRef "tc" 1 "S" 30; TxoRef "td" 0 "S" 40]
  ∧ (__txosListByScriptId Scenario.s_scan "S" 0 (LimitPair 2 5)).1 =
    [TxoRef "tb" 0 "S" 20; TxoRef "tc" 0 "S" 30]
  ∧ (__txosListByScriptId Scenario.s_scan "S" 0 (LimitPair 2 5)).2 =
    {| pos_height := 0; pos_offset := 3 |}.
Proof. vm_compute. by repeat split. Qed.

Lemma resultMap_fold_inv (scId : string) (l : list sc_key)
    (m : gmap string txo_ref) (key : string) (v : txo_ref) :
  foldl (λ (resultMap : gmap string txo_ref) (txo : sc_key),
           let '(_, h, txId, vout) := txo in
           <[outpoint_string txId vout := TxoRef txId vout scId h]> resultMap)
    m l !! key = Some v →
  m !! key = Some v
  ∨ ∃ k, k ∈ l ∧ key = outpoint_string k.1.2 k.2 ∧ v = txo_of_key scId k.
Proof.
  revert m. induction l as [|k l IH]; intros m; csimpl; [by left|].
  intros [Hm|(k' & Hk' & ?)]%IH.
  - destruct k as [[[sk h] t] vo].
    destruct (decide (outpoint_string t vo = key)) as [<-|Hne].
    + rewrite lookup_insert_eq in Hm. injection Hm as <-.
      right. exists (sk, h, t, vo). split; [by left|done].
    + rewrite lookup_insert_ne in Hm by done. by left.
  - right. exists k'. split; [by right|done].
Qed.

Lemma resultMap_fold_keeps (scId : string) (l : list sc_key)
    (m : gmap string txo_ref) (key : string) :
  is_Some (m !! key) →
  is_Some (foldl (λ (resultMap : gmap string txo_ref) (txo : sc_key),
                    let '(_, h, txId, vout) := txo in
                    <[outpoint_string txId vout := TxoRef txId vout scId h]>
                      resultMap)
             m l !! key).
Proof.
  revert m. induction l as [|k l IH]; intros m Hm; csimpl; [done|].
  apply IH. destruct k as [[[sk h] t] vo].
  destruct (decide (outpoint_string t vo = key)) as [<-|Hne].
  - rewrite lookup_insert_eq. by eexists.
  - by rewrite lookup_insert_ne.
Qed.

Lemma resultMap_fold_covers (scId : string) (l : list sc_key)
    (m : gmap string txo_ref) (k : sc_key) :
  k ∈ l →
  is_Some (foldl (λ (resultMap : gmap string txo_ref) (txo : sc_key),
                    let '(_, h, txId, vout) := txo in
                    <[outpoint_string txId vout := TxoRef txId vout scId h]>
                      resultMap)
             m l !! outpoint_string k.1.2 k.2).
Proof.
  revert m. induction l as [|k' l IH]; intros m Hk; csimpl.
  - by apply elem_of_nil in Hk.
  - apply elem_of_cons in Hk as [<-|Hk]; [|by apply IH].
    apply resultMap_fold_keeps. destruct k as [[[sk h] t] vo].
    cbn [fst snd]. rewrite lookup_insert_eq. by eexists.
Qed.

(** C10. A limit of 0, like an omitted one, is replaced by 10000 in
    [__txosListByScriptId] and in [txosByScriptId]: the scan is the one
    bounded by 10000 entries. The list holds every entry of the script
    from [height] on, up to 10000 of them, and the map has an entry under
    `txId:vout` for each of these entries and no entry but theirs, so
    that neither call can be bounded to zero entries. *)
Theorem zero_limit_is_default (s : store) (scId : string) (height : Z) :
  or_default (Some 0) 10000 = 10000
  ∧ or_default None 10000 = 10000
  ∧ __txosListByScriptId s scId height (LimitNumber 0) =
      __txosListByScriptId s scId height (LimitNumber 10000)
  ∧ __txosListByScriptId s scId height LimitOmitted =
      __txosListByScriptId s scId height (LimitNumber 10000)
  ∧ (__txosListByScriptId s scId height (LimitNumber 0)).1 =
      txo_of_key scId <$> walked s scId height 10000
  ∧ txosByScriptId s scId height (Some 0) =
      txosByScriptId s scId height (Some 10000)
  ∧ txosByScriptId s scId height None =
      txosByScriptId s scId height (Some 10000)
  ∧ (∀ k, k ∈ walked s scId height 10000 →
       is_Some (txosByScriptId s scId height (Some 0)
                  !! outpoint_string k.1.2 k.2))
  ∧ (∀ key v, txosByScriptId s scId height (Some 0) !! key = Some v →
       ∃ k, k ∈ walked s scId height 10000
            ∧ key = outpoint_string k.1.2 k.2 ∧ v = txo_of_key scId k).
Proof.
  split_and!; try reflexivity.
  - unfold __txosListByScriptId. simpl.
    rewrite walk_results. by simpl.
  - intros k Hk. unfold txosByScriptId.
    by apply (resultMap_fold_covers scId _ ∅ k).
  - intros key v Hv. unfold txosByScriptId in Hv.
    by apply resultMap_fold_inv in Hv as [Hm|?].
Qed.

Lemma zero_limit_is_default_witness :
  length (__txosListByScriptId Scenario.s_scan "S" 0 (LimitNumber 0)).1
  = 5%nat
  ∧ is_Some (txosByScriptId Scenario.s_scan "S" 0 (Some 0)
               !! outpoint_string "td" 0)
  ∧ txosByScriptId Scenario.s_scan "S" 0 (Some 0) !! outpoint_string "te" 0
    = None.
Proof.
  destruct (zero_limit_is_default Scenario.s_scan "S" 0)
    as (_ & _ & _ & _ & Hlist & _ & _ & Hcovers & Honly).
  split_and!.
  - rewrite Hlist. reflexivity.
  - apply (Hcovers ("S", 40, "td", 0)). vm_compute. do 4 right. by left.
  - destruct (txosByScriptId Scenario.s_scan "S" 0 (Some 0)
                !! outpoint_string "te" 0) as [v|] eqn:Hv; [|done].
    apply Honly in Hv as (k & Hk & Hkey & _). exfalso.
    vm_compute in Hk.
    repeat (apply elem_of_cons in Hk as [->|Hk]; [by vm_compute in Hkey|]).
    by apply elem_of_nil in Hk.
Defined.

(** ** CONNECT then DISCONNECT *)

(** *** Reading the store through a batch *)

Lemma read_apply_op_ne (s : store) (o : op) (k : op_key) :
  key_of o ≠ k → read (apply_op s o) k = read s k.
Proof.
  intros Hne.
  destruct o, k; simpl in *; try done;
    (rewrite lookup_insert_ne by congruence) ||
    (rewrite lookup_delete_ne by congruence); done.
Qed.

Lemma read_apply_op_del (s : store) (o : op) :
  is_del o = true → read (apply_op s o) (key_of o) = None.
Proof.
  intros Hdel. destruct o; simpl in *; try done;
    by rewrite lookup_delete_eq.
Qed.

Lemma apply_batch_cons (s : store) (o : op) (ops : list op) :
  apply_batch s (o :: ops) = apply_batch (apply_op s o) ops.
Proof. reflexivity. Qed.

Lemma read_apply_batch_untouched (ops : list op) (s : store) (k : op_key) :
  k ∉ key_of <$> ops → read (apply_batch s ops) k = read s k.
Proof.
  revert s. induction ops as [|o ops IH]; intros s Hk; [done|].
  rewrite fmap_cons in Hk. apply not_elem_of_cons in Hk as [Hne Hk].
  rewrite apply_batch_cons, IH by done.
  by apply read_apply_op_ne.
Qed.

Lemma read_apply_batch_deleted (ops : list op) (s : store) (k : op_key) :
  Forall (λ o, is_del o = true ∨ key_of o ≠ k) ops →
  k ∈ key_of <$> ops →
  read (apply_batch s ops) k = None.
Proof.
  revert s. induction ops as [|o ops IH]; intros s Hdel Hk.
  - by apply elem_of_nil in Hk.
  - apply Forall_cons in Hdel as [Ho Hdel]. rewrite apply_batch_cons.
    destruct (decide (k ∈ key_of <$> ops)) as [Hin|Hnotin].
    + by apply IH.
    + rewrite fmap_cons in Hk. apply elem_of_cons in Hk as [->|Hk]; [|done].
      rewrite read_apply_batch_untouched by done.
      destruct Ho as [Ho|Ho]; [by apply read_apply_op_del|done].
Qed.

Lemma absent_read (s : store) (o : op) :
  absent s o → is_del o = false → key_of o ≠ KTip →
  (∀ h, key_of o ≠ KFee h) → read s (key_of o) = None.
Proof.
  intros Habs Hput Htip Hfee.
  destruct o; simpl in *; try done; try by rewrite Habs.
  by specialize (Hfee k).
Qed.

(** *** The keys of the two batches *)

Lemma log_concat_fst (ls : list log) :
  (log_concat ls).1 = concat (fst <$> ls).
Proof. induction ls as [|l ls IH]; csimpl; [done|]. by rewrite IH. Qed.

Lemma fmap_concat {A B} (f : A → B) (ls : list (list A)) :
  f <$> concat ls = concat ((λ l : list A, f <$> l) <$> ls).
Proof.
  induction ls as [|l ls IH]; csimpl; [done|]. by rewrite fmap_app, IH.
Qed.

Lemma connect_ins_keys (txId : string) (inputs : list input) (n : nat) :
  key_of <$> (log_concat (imap (λ i, connect_in txId (n + i)) inputs)).1
  = concat (in_keys <$> inputs).
Proof.
  revert n. induction inputs as [|i inputs IH]; intros n; [done|].
  rewrite imap_cons. csimpl. rewrite fmap_app.
  rewrite <- (IH (S n)). f_equal.
  - unfold connect_in, in_keys. by destruct (coinbase i).
  - do 3 f_equal. apply imap_ext. intros j x _. csimpl. f_equal. lia.
Qed.

Lemma disconnect_ins_keys (inputs : list input) :
  key_of <$> concat ((λ i : input,
                        if coinbase i then []
                        else [DelSpent (prevTxId i, in_vout i)]) <$> inputs)
  = concat (in_keys <$> inputs).
Proof.
  induction inputs as [|i inputs IH]; csimpl; [done|].
  rewrite fmap_app, IH. f_equal. unfold in_keys. by destruct (coinbase i).
Qed.

Lemma connect_outs_keys (height : Z) (txId txBuffer : string)
    (outputs : list output) :
  key_of <$> (log_concat (connect_out height txId txBuffer <$> outputs)).1
  = concat ((λ o, out_keys height txId (out_vout o) o) <$> outputs).
Proof.
  induction outputs as [|o outputs IH]; csimpl; [done|]. by rewrite IH.
Qed.

Lemma disconnect_outs_keys (height : Z) (txId : string)
    (outputs : list output) (n : nat) :
  out_vout <$> outputs = Z.of_nat <$> seq n (length outputs) →
  key_of <$> concat (imap (λ (vout : nat) (o : output),
                       [DelSc (out_scId o, height, txId, Z.of_nat (n + vout));
                        DelTxo (txId, Z.of_nat (n + vout))]) outputs)
  = concat ((λ o, out_keys height txId (out_vout o) o) <$> outputs).
Proof.
  revert n. induction outputs as [|o outputs IH]; intros n Hpos; [done|].
  csimpl in Hpos. injection Hpos as Ho Hpos.
  rewrite imap_cons. csimpl. rewrite <- (IH (S n)) by done.
  unfold out_keys. rewrite Ho, Nat.add_0_r. do 4 f_equal.
  apply imap_ext. intros j x _. csimpl.
  by replace (n + S j)%nat with (S n + j)%nat by lia.
Qed.

Lemma connect_ins_keys_0 (txId : string) (inputs : list input) :
  key_of <$> (log_concat (imap (connect_in txId) inputs)).1
  = concat (in_keys <$> inputs).
Proof. exact (connect_ins_keys txId inputs 0). Qed.

Lemma disconnect_outs_keys_0 (height : Z) (txId : string)
    (outputs : list output) :
  out_vout <$> outputs = Z.of_nat <$> seq 0 (length outputs) →
  key_of <$> concat (imap (λ (vout : nat) (o : output),
                       [DelSc (out_scId o, height, txId, Z.of_nat vout);
                        DelTxo (txId, Z.of_nat vout)]) outputs)
  = concat ((λ o, out_keys height txId (out_vout o) o) <$> outputs).
Proof. exact (disconnect_outs_keys height txId outputs 0). Qed.

Lemma tx_keys (blockId : string) (height : Z) (tx : transaction) :
  out_vout <$> outs tx = Z.of_nat <$> seq 0 (length (outs tx)) →
  key_of <$> (connect_tx blockId height tx).1
  = key_of <$> disconnect_tx height tx.
Proof.
  intros Hpos. unfold connect_tx, disconnect_tx, log_app. cbn [fst snd].
  rewrite !fmap_app.
  rewrite connect_ins_keys_0, disconnect_ins_keys, connect_outs_keys.
  by rewrite disconnect_outs_keys_0.
Qed.

Lemma batch_keys (blockId : string) (b : block) :
  vouts_positional b →
  key_of <$> (connect_log blockId (blk_height b) b).1
  = key_of <$> disconnect_batch b.
Proof.
  unfold vouts_positional, connect_log, disconnect_batch, log_app.
  cbn [fst snd].
  intros Hpos. rewrite !fmap_app. f_equal.
  rewrite log_concat_fst.
  induction Hpos as [|tx txs Htx _ IH]; [done|].
  rewrite !fmap_cons. cbn [concat]. rewrite !fmap_app, IH. f_equal.
  by apply tx_keys.
Qed.

(** Closes [Forall P ops] for an explicit batch [ops], each entry by [tac]. *)
Ltac each_op tac :=
  repeat first [apply Forall_nil_2 | apply Forall_cons_2; [solve [tac]|]].

Lemma connect_log_puts (blockId : string) (height : Z) (b : block) :
  Forall (λ o, is_del o = false ∧ ∀ h, key_of o ≠ KFee h)
    (connect_log blockId height b).1.
Proof.
  unfold connect_log, log_app. cbn [fst snd].
  apply Forall_app. split; [|each_op ltac:(split; [done|intros ?; simpl; discriminate])].
  rewrite log_concat_fst. apply Forall_concat, Forall_fmap, Forall_fmap.
  apply Forall_forall. intros tx _.
  unfold connect_tx, log_app, compose. cbn [fst snd].
  repeat (apply Forall_app; split); [| |each_op ltac:(split; [done|intros ?; simpl; discriminate])].
  - rewrite log_concat_fst. apply Forall_concat, Forall_fmap.
    apply Forall_forall. intros l Hl.
    apply elem_of_lookup_imap in Hl as (i & x & -> & _).
    unfold compose, connect_in. destruct (coinbase x); cbn [fst]; each_op ltac:(split; [done|intros ?; simpl; discriminate]).
  - rewrite log_concat_fst. apply Forall_concat, Forall_fmap, Forall_fmap.
    apply Forall_forall. intros o _.
    unfold compose, connect_out. cbn [fst]. each_op ltac:(split; [done|intros ?; simpl; discriminate]).
Qed.

Lemma disconnect_batch_dels (b : block) :
  Forall (λ o, is_del o = true ∨ key_of o = KTip) (disconnect_batch b).
Proof.
  unfold disconnect_batch. apply Forall_app.
  split; [|each_op ltac:(by right)].
  apply Forall_concat, Forall_fmap, Forall_forall. intros tx _.
  unfold compose, disconnect_tx.
  repeat (apply Forall_app; split); [| |each_op ltac:(by left)].
  - apply Forall_concat, Forall_fmap, Forall_forall. intros i _.
    unfold compose. destruct (coinbase i); each_op ltac:(by left).
  - apply Forall_concat, Forall_forall. intros l Hl.
    apply elem_of_lookup_imap in Hl as (i & x & -> & _).
    each_op ltac:(by left).
Qed.

(** *** The stores after CONNECT and after DISCONNECT *)

Lemma connect_store (rpc : string → result block)
    (read_fails : string → Z → bool) (fee_commit : option error)
    (s : store) (blockId : string) (b : block) :
  rpc blockId = Ok b →
  ∃ fee_ops,
    out_store (connect rpc read_fails None fee_commit s blockId (blk_height b)) =
      apply_batch (apply_batch s (connect_log blockId (blk_height b) b).1)
        fee_ops
    ∧ Forall (λ o, ∃ h, key_of o = KFee h) fee_ops.
Proof.
  intros Hrpc. unfold connect. rewrite Hrpc.
  rewrite decide_False by (intros H; by apply H).
  destruct (connect_log blockId (blk_height b) b) as [atomic events].
  cbn [write fst]. unfold connect2ndOrder.
  destruct (feeRates _ _) as [rates|e]; cbn [mbind result_bind].
  - destruct fee_commit as [e|]; cbn [write out_store].
    + by exists [].
    + eexists. split; [reflexivity|]. each_op ltac:(by eexists).
  - by exists [].
Qed.

Lemma disconnect_store (rpc : string → result block) (s : store)
    (blockId : string) (b : block) :
  rpc blockId = Ok b →
  out_store (disconnect rpc None s blockId) =
    apply_batch s (disconnect_batch b).
Proof. intros Hrpc. unfold disconnect. by rewrite Hrpc. Qed.

Lemma disconnect_keeps_fees (b : block) (s : store) :
  feeIndex (apply_batch s (disconnect_batch b)) = feeIndex s.
Proof.
  apply map_eq. intros h.
  assert (read (apply_batch s (disconnect_batch b)) (KFee h)
          = read s (KFee h)) as Hread.
  { apply read_apply_batch_untouched.
    intros (o & Hkey & Ho)%list_elem_of_fmap.
    pose proof (disconnect_batch_dels b) as Hdels.
    rewrite Forall_forall in Hdels.
    destruct (Hdels o Ho) as [Hdel|Htip]; [|congruence].
    by destruct o. }
  simpl in Hread.
  destruct (feeIndex _ !! h), (feeIndex s !! h); simpl in *; congruence.
Qed.

Lemma roundtrip_read (rpc : string → result block)
    (read_fails : string → Z → bool) (fee_commit : option error)
    (s : store) (blockId : string) (b : block) (k : op_key) :
  rpc blockId = Ok b →
  vouts_positional b →
  fresh_for s blockId b →
  k ≠ KTip → (∀ h, k ≠ KFee h) →
  read (out_store (disconnect rpc None
          (out_store (connect rpc read_fails None fee_commit s blockId (blk_height b)))
          blockId)) k
  = read s k.
Proof.
  intros Hrpc Hpos Hfresh Htip Hfee.
  destruct (connect_store rpc read_fails fee_commit s blockId b Hrpc)
    as (fee_ops & -> & Hfee_ops).
  rewrite (disconnect_store rpc _ blockId b Hrpc).
  pose proof (batch_keys blockId b Hpos) as Hkeys.
  destruct (decide (k ∈ key_of <$> disconnect_batch b)) as [Hin|Hnotin].
  - rewrite read_apply_batch_deleted; [| |done].
    + rewrite <- Hkeys in Hin.
      apply list_elem_of_fmap in Hin as (o & -> & Ho).
      pose proof (connect_log_puts blockId (blk_height b) b) as Hputs.
      rewrite Forall_forall in Hputs. destruct (Hputs o Ho) as [Hput Hnofee].
      unfold fresh_for in Hfresh. rewrite Forall_forall in Hfresh.
      symmetry. by apply absent_read; [apply Hfresh| | |].
    + eapply Forall_impl; [apply disconnect_batch_dels|].
      intros o [Hdel|Hk]; [by left|right; congruence].
  - rewrite read_apply_batch_untouched by done.
    rewrite read_apply_batch_untouched.
    + apply read_apply_batch_untouched. by rewrite Hkeys.
    + intros (o & -> & Ho)%list_elem_of_fmap.
      rewrite Forall_forall in Hfee_ops.
      destruct (Hfee_ops o Ho) as [h Hh]. by apply (Hfee h).
Qed.

Lemma connect_fee_row (rpc : string → result block)
    (read_fails : string → Z → bool)
    (primary_commit fee_commit : option error) (s : store)
    (blockId : string) (height : Z) (b : block) :
  rpc blockId = Ok b →
  out_err (connect rpc read_fails primary_commit fee_commit s blockId height) = None →
  ∃ rates,
    feeIndex (out_store (connect rpc read_fails primary_commit fee_commit s blockId height))
      !! blk_height b
    = Some {| fee_fees := box (sort_ascending rates); fee_size := blk_size b |}.
Proof.
  intros Hrpc. unfold connect. rewrite Hrpc.
  case_decide; [done|].
  destruct (connect_log blockId height b) as [atomic events].
  destruct primary_commit; [done|]. cbn [write]. unfold connect2ndOrder.
  destruct (feeRates _ _) as [rates|e]; cbn [mbind result_bind]; [|done].
  destruct fee_commit; [done|]. cbn [write out_store]. intros _.
  exists rates. unfold apply_batch. cbn [foldl apply_op feeIndex].
  apply lookup_insert_eq.
Qed.

(** C3 as stated fails. On the store in which "b0" and "b1" are already
    connected, TxIndex holds tx1 at height 1; CONNECT("b1") followed by
    DISCONNECT("b1"), both successful, leave no TxIndex row for tx1: the
    row is deleted, not put back to what it was. *)
Lemma roundtrip_deletes_prior_row :
  let connected := connect Scenario.rpc reads_ok None None Scenario.s1 "b1" 1 in
  let after := disconnect Scenario.rpc None (out_store connected) "b1" in
  out_err connected = None
  ∧ out_err after = None
  ∧ txIndex Scenario.s1 !! "tx1" = Some 1
  ∧ txIndex (out_store after) !! "tx1" = None.
Proof. vm_compute. by repeat split. Qed.

(** C3, amended. Let block B carry in each output its position as [vout],
    and let the store hold no row under any TxIndex, TxoIndex, SpentIndex
    or ScriptIndex key that CONNECT(B) puts. Then a committed CONNECT(B),
    whatever its fee pass answers, followed by a committed DISCONNECT(B)
    leaves these four indexes exactly as they were before the CONNECT;
    the Tip then names B's previousblockhash; and the FeeIndex is what
    the CONNECT left, the row of B's height included. *)
Theorem connect_disconnect_roundtrip (rpc : string → result block)
    (read_fails : string → Z → bool)
    (fee_commit : option error) (s : store) (blockId : string) (b : block) :
  rpc blockId = Ok b →
  vouts_positional b →
  fresh_for s blockId b →
  let connected := connect rpc read_fails None fee_commit s blockId (blk_height b) in
  let after := disconnect rpc None (out_store connected) blockId in
  out_err after = None
  ∧ txIndex (out_store after) = txIndex s
  ∧ txoIndex (out_store after) = txoIndex s
  ∧ spentIndex (out_store after) = spentIndex s
  ∧ scIndex (out_store after) = scIndex s
  ∧ tip_blockId <$> tipRow (out_store after) = Some (previousblockhash b)
  ∧ feeIndex (out_store after) = feeIndex (out_store connected)
  ∧ (out_err connected = None →
       ∃ rates,
         feeIndex (out_store after) !! blk_height b =
           Some {| fee_fees := box (sort_ascending rates);
                   fee_size := blk_size b |}).
Proof.
  intros Hrpc Hpos Hfresh connected after.
  assert (∀ k, k ≠ KTip → (∀ h, k ≠ KFee h) →
            read (out_store after) k = read s k) as Hread.
  { intros k. by apply roundtrip_read. }
  assert (feeIndex (out_store after) = feeIndex (out_store connected))
    as Hfees.
  { unfold after. rewrite (disconnect_store rpc _ blockId b Hrpc).
    apply disconnect_keeps_fees. }
  split_and!.
  - unfold after, disconnect. by rewrite Hrpc.
  - apply map_eq. intros k. specialize (Hread (KTx k)). simpl in Hread.
    destruct (txIndex _ !! k), (txIndex s !! k); simpl in *;
      naive_solver.
  - apply map_eq. intros k. specialize (Hread (KTxo k)). simpl in Hread.
    destruct (txoIndex _ !! k), (txoIndex s !! k); simpl in *;
      naive_solver.
  - apply map_eq. intros k. specialize (Hread (KSpent k)). simpl in Hread.
    destruct (spentIndex _ !! k), (spentIndex s !! k); simpl in *;
      naive_solver.
  - apply map_eq. intros k. specialize (Hread (KSc k)). simpl in Hread.
    destruct (scIndex _ !! k) as [[]|], (scIndex s !! k) as [[]|];
      simpl in *; naive_solver.
  - unfold after. by rewrite (disconnect_tip rpc _ blockId b Hrpc).
  - done.
  - intros Hok. rewrite Hfees. by apply connect_fee_row.
Qed.

Lemma connect_disconnect_roundtrip_witness :
  let connected := connect Scenario.rpc reads_ok None None Scenario.s0 "b1" 1 in
  let after := disconnect Scenario.rpc None (out_store connected) "b1" in
  txIndex (out_store after) = txIndex Scenario.s0
  ∧ txoIndex (out_store after) = txoIndex Scenario.s0
  ∧ spentIndex (out_store after) = spentIndex Scenario.s0
  ∧ scIndex (out_store after) = scIndex Scenario.s0.
Proof.
  destruct (connect_disconnect_roundtrip Scenario.rpc reads_ok None Scenario.s0 "b1"
              Scenario.b1) as (_ & Htx & Htxo & Hspent & Hsc & _).
  - reflexivity.
  - unfold vouts_positional. simpl. repeat constructor.
  - unfold fresh_for. simpl. repeat constructor.
  - by repeat split.
Defined.

(** ** Further properties of CONNECT *)

Lemma read_apply_op_eq (s : store) (o : op) :
  read (apply_op s o) (key_of o) = op_cell o.
Proof.
  destruct o; simpl; try done;
    by (rewrite lookup_insert_eq) || by (rewrite lookup_delete_eq).
Qed.

(** The last entry of a batch that names a key decides what is read. *)
Lemma read_apply_batch_last (ops : list op) (s : store) (k : op_key) :
  k ∈ key_of <$> ops →
  ∃ o, o ∈ ops ∧ key_of o = k ∧ read (apply_batch s ops) k = op_cell o.
Proof.
  revert s. induction ops as [|o ops IH]; intros s Hk.
  - by apply elem_of_nil in Hk.
  - rewrite apply_batch_cons.
    destruct (decide (k ∈ key_of <$> ops)) as [Hin|Hnotin].
    + destruct (IH (apply_op s o) Hin) as (o' & Ho' & Hkey & Hread).
      exists o'. split_and!; [by right|done|done].
    + rewrite fmap_cons in Hk. apply elem_of_cons in Hk as [->|Hk]; [|done].
      exists o. split_and!; [by left|done|].
      rewrite read_apply_batch_untouched by done. apply read_apply_op_eq.
Qed.

Lemma read_apply_batch_same (ops : list op) (s : store) (k : op_key)
    (c : option cell) :
  (∀ o, o ∈ ops → key_of o = k → op_cell o = c) →
  k ∈ key_of <$> ops →
  read (apply_batch s ops) k = c.
Proof.
  intros Hsame Hk.
  destruct (read_apply_batch_last ops s k Hk) as (o & Ho & Hkey & ->).
  by apply Hsame.
Qed.

Lemma elem_of_concat {A} (x : A) (ls : list (list A)) :
  x ∈ concat ls ↔ ∃ l, l ∈ ls ∧ x ∈ l.
Proof.
  induction ls as [|l ls IH]; csimpl.
  - split; [by intros ?%elem_of_nil|by intros (? & ?%elem_of_nil & _)].
  - rewrite elem_of_app, IH. split.
    + intros [Hx|(l' & Hl' & Hx)]; [exists l|exists l']; split; try done;
        [by left|by right].
    + intros (l' & [->|Hl']%elem_of_cons & Hx); [by left|right; eauto].
Qed.

(** The entries of the primary batch, one by one. *)
Lemma elem_of_connect_log (o : op) (blockId : string) (height : Z)
    (b : block) :
  o ∈ (connect_log blockId height b).1 ↔
    (∃ tx vin i, tx ∈ transactions b ∧ ins tx !! vin = Some i
       ∧ coinbase i = false
       ∧ o = PutSpent (prevTxId i, in_vout i)
               {| spent_txId := txId tx; spent_vin := Z.of_nat vin |})
    ∨ (∃ tx out, tx ∈ transactions b ∧ out ∈ outs tx
         ∧ (o = PutSc (out_scId out, height, txId tx, out_vout out)
            ∨ o = PutTxo (txId tx, out_vout out)
                    {| txo_value := value out; txo_script := script out |}))
    ∨ (∃ tx, tx ∈ transactions b ∧ o = PutTx (txId tx) height)
    ∨ o = PutTip {| tip_blockId := blockId; tip_height := height |}.
Proof.
  unfold connect_log, log_app. cbn [fst snd].
  rewrite elem_of_app, log_concat_fst, elem_of_concat.
  setoid_rewrite list_elem_of_fmap. setoid_rewrite list_elem_of_fmap.
  split.
  - intros [(l & (lg & -> & tx & -> & Htx) & Ho)|Ho].
    + unfold connect_tx, log_app in Ho. cbn [fst snd] in Ho.
      rewrite !elem_of_app, !log_concat_fst, !elem_of_concat in Ho.
      destruct Ho as [(l & Hl & Ho)|[(l & Hl & Ho)|Ho]].
      * apply list_elem_of_fmap in Hl as (lg & -> & Hlg).
        apply elem_of_lookup_imap in Hlg as (vin & i & -> & Hi).
        unfold connect_in in Ho. destruct (coinbase i) eqn:Hcb;
          cbn [fst] in Ho; [by apply elem_of_nil in Ho|].
        apply list_elem_of_singleton in Ho as ->.
        left. by exists tx, vin, i.
      * apply list_elem_of_fmap in Hl as (lg & -> & Hlg).
        apply list_elem_of_fmap in Hlg as (out & -> & Hout).
        unfold connect_out in Ho. cbn [fst] in Ho.
        right; left. exists tx, out. split_and!; [done|done|].
        apply elem_of_cons in Ho as [->|Ho]; [by left|].
        apply list_elem_of_singleton in Ho as ->. by right.
      * apply list_elem_of_singleton in Ho as ->.
        right; right; left. by exists tx.
    + apply list_elem_of_singleton in Ho as ->. by do 3 right.
  - intros [(tx & vin & i & Htx & Hi & Hcb & ->)
           |[(tx & out & Htx & Hout & Ho)
            |[(tx & Htx & ->)| ->]]];
      [left|left|left|right; by apply list_elem_of_singleton];
      (eexists; split; [eexists; split; [reflexivity|by exists tx]|]);
      unfold connect_tx, log_app; cbn [fst snd];
      rewrite !elem_of_app, !log_concat_fst, !elem_of_concat.
    + left. eexists. split.
      * apply list_elem_of_fmap. eexists. split; [reflexivity|].
        by apply (elem_of_lookup_imap_2 _ _ i vin).
      * unfold connect_in. rewrite Hcb. by apply list_elem_of_singleton.
    + right; left. eexists. split.
      * apply list_elem_of_fmap. eexists. split; [reflexivity|].
        by apply list_elem_of_fmap_2.
      * unfold connect_out. cbn [fst].
        destruct Ho as [-> | ->]; [by left|right; by left].
    + do 2 right. by apply list_elem_of_singleton.
Qed.

Lemma connect_read (rpc : string → result block)
    (read_fails : string → Z → bool) (fee_commit : option error)
    (s : store) (blockId : string) (b : block) (k : op_key) :
  rpc blockId = Ok b →
  (∀ h, k ≠ KFee h) →
  read (out_store (connect rpc read_fails None fee_commit s blockId (blk_height b))) k
  = read (apply_batch s (connect_log blockId (blk_height b) b).1) k.
Proof.
  intros Hrpc Hfee.
  destruct (connect_store rpc read_fails fee_commit s blockId b Hrpc)
    as (fee_ops & -> & Hfee_ops).
  apply read_apply_batch_untouched.
  intros (o & -> & Ho)%list_elem_of_fmap.
  rewrite Forall_forall in Hfee_ops.
  destruct (Hfee_ops o Ho) as [h Hh]. by apply (Hfee h).
Qed.



Lemma connect_puts_tx_row (rpc : string → result block)
    (read_fails : string → Z → bool)
    (fee_commit : option error) (s : store) (blockId : string) (b : block)
    (tx : transaction) :
  rpc blockId = Ok b →
  tx ∈ transactions b →
  blockHeightByTransactionId
    (out_store (connect rpc read_fails None fee_commit s blockId (blk_height b)))
    (txId tx)
  = Some (blk_height b).
Proof.
  intros Hrpc Htx. unfold blockHeightByTransactionId.
  pose proof (connect_read rpc read_fails fee_commit s blockId b (KTx (txId tx)) Hrpc)
    as Hread.
  rewrite (read_apply_batch_same _ _ _ (Some (CTx (blk_height b))))
    in Hread.
  - simpl in Hread. specialize (Hread ltac:(done)).
    destruct (txIndex _ !! txId tx); simpl in Hread; congruence.
  - intros o Ho Hkey. apply elem_of_connect_log in Ho
      as [(? & ? & ? & _ & _ & _ & ->)
         |[(? & ? & _ & _ & [-> | ->])|[(? & _ & ->)| ->]]]; done.
  - apply list_elem_of_fmap. exists (PutTx (txId tx) (blk_height b)).
    split; [done|]. apply elem_of_connect_log. right; right; left. eauto.
Qed.



Lemma connect_puts_sc_row (rpc : string → result block)
    (read_fails : string → Z → bool)
    (fee_commit : option error) (s : store) (blockId : string) (b : block)
    (tx : transaction) (out : output) :
  rpc blockId = Ok b →
  tx ∈ transactions b →
  out ∈ outs tx →
  scIndex (out_store (connect rpc read_fails None fee_commit s blockId (blk_height b)))
    !! (out_scId out, blk_height b, txId tx, out_vout out)
  = Some ().
Proof.
  intros Hrpc Htx Hout.
  pose proof (connect_read rpc read_fails fee_commit s blockId b
                (KSc (out_scId out, blk_height b, txId tx, out_vout out))
                Hrpc) as Hread.
  rewrite (read_apply_batch_same _ _ _ (Some CSc)) in Hread.
  - simpl in Hread. specialize (Hread ltac:(done)).
    by destruct (scIndex _ !! _) as [[]|].
  - intros o Ho Hkey. apply elem_of_connect_log in Ho
      as [(? & ? & ? & _ & _ & _ & ->)
         |[(? & ? & _ & _ & [-> | ->])|[(? & _ & ->)| ->]]]; done.
  - apply list_elem_of_fmap.
    exists (PutSc (out_scId out, blk_height b, txId tx, out_vout out)).
    split; [done|]. apply elem_of_connect_log. right; left.
    exists tx, out. split_and!; [done|done|by left].
Qed.

(** X3. After a committed CONNECT every output of every transaction of
    the block has its script-activity row
    {scId, height, txId, vout} in ScriptIndex. *)
Theorem connect_script_activity (rpc : string → result block)
    (read_fails : string → Z → bool)
    (fee_commit : option error) (s : store) (blockId : string) (b : block)
    (tx : transaction) (out : output) :
  rpc blockId = Ok b →
  tx ∈ transactions b →
  out ∈ outs tx →
  scIndex (out_store (connect rpc read_fails None fee_commit s blockId (blk_height b)))
    !! (out_scId out, blk_height b, txId tx, out_vout out)
  = Some ().
Proof. apply connect_puts_sc_row. Qed.

Lemma connect_script_activity_witness :
  scIndex (out_store (connect Scenario.rpc reads_ok None None Scenario.s0 "b1" 1))
    !! ("s2", 1, "tx1", 0)
  = Some ().
Proof.
  apply (connect_script_activity Scenario.rpc reads_ok None Scenario.s0 "b1"
           Scenario.b1 Scenario.tx1 (Output "s2" "script1" 4999990000 0)).
  - reflexivity.
  - simpl. by left.
  - simpl. by left.
Defined.





Lemma log_concat_snd (ls : list log) :
  (log_concat ls).2 = concat (snd <$> ls).
Proof. induction ls as [|l ls IH]; csimpl; [done|]. by rewrite IH. Qed.

Lemma connect_ins_events (txId : string) (inputs : list input) (n : nat) :
  (log_concat (imap (λ i, connect_in txId (n + i)) inputs)).2
  = (λ i, EvSpent (outpoint_string (prevTxId i) (in_vout i)) txId)
      <$> filter (λ i, coinbase i = false) inputs.
Proof.
  revert n. induction inputs as [|i inputs IH]; intros n; [done|].
  rewrite imap_cons, filter_cons. cbn [log_concat foldr log_app snd].
  fold (log_concat (imap ((λ i0, connect_in txId (n + i0)) ∘ S) inputs)).
  rewrite (imap_ext _ (λ j, connect_in txId (S n + j)))
    by (intros j x _; simpl; f_equal; lia).
  rewrite IH. unfold connect_in.
  destruct (coinbase i); by case_decide.
Qed.

Lemma connect_ins_events_0 (txId : string) (inputs : list input) :
  (log_concat (imap (connect_in txId) inputs)).2
  = (λ i, EvSpent (outpoint_string (prevTxId i) (in_vout i)) txId)
      <$> filter (λ i, coinbase i = false) inputs.
Proof. exact (connect_ins_events txId inputs 0). Qed.

Lemma connect_tx_events (blockId : string) (height : Z) (tx : transaction) :
  (connect_tx blockId height tx).2 = tx_events blockId tx.
Proof.
  unfold connect_tx, tx_events, log_app. cbn [fst snd].
  rewrite connect_ins_events_0.
  do 2 f_equal. rewrite log_concat_snd.
  induction (outs tx) as [|o l IH]; csimpl; [done|]. by rewrite IH.
Qed.

(** X6. A CONNECT whose primary batch is committed emits, for each
    transaction in block order, one spent event per non-coinbase input in
    input order, one script event per output in output order and one
    transaction event, and after all of them one block event. *)
Theorem connect_emits_in_block_order (rpc : string → result block)
    (read_fails : string → Z → bool)
    (fee_commit : option error) (s : store) (blockId : string) (b : block) :
  rpc blockId = Ok b →
  out_emitted (connect rpc read_fails None fee_commit s blockId (blk_height b))
  = block_events blockId b.
Proof.
  intros Hrpc. rewrite connect_emits_after_primary_commit by done.
  unfold connect_log, block_events, log_app. cbn [fst snd].
  f_equal. rewrite log_concat_snd.
  induction (transactions b) as [|tx txs IH]; [done|].
  rewrite !fmap_cons. cbn [concat]. by rewrite IH, connect_tx_events.
Qed.

Lemma connect_emits_in_block_order_witness :
  out_emitted (connect Scenario.rpc reads_ok None None Scenario.s0 "b1" 1)
  = block_events "b1" Scenario.b1.
Proof.
  apply (connect_emits_in_block_order Scenario.rpc reads_ok None Scenario.s0 "b1"
           Scenario.b1).
  reflexivity.
Defined.

Lemma puts_keep_rows (ops : list op) (s : store) (k : op_key) :
  Forall (λ o, is_del o = false) ops →
  is_Some (read s k) → is_Some (read (apply_batch s ops) k).
Proof.
  revert s. induction ops as [|o ops IH]; intros s Hputs Hk; [done|].
  apply Forall_cons in Hputs as [Ho Hputs]. rewrite apply_batch_cons.
  apply IH; [done|].
  destruct (decide (key_of o = k)) as [<-|Hne].
  - rewrite read_apply_op_eq. by destruct o.
  - by rewrite read_apply_op_ne.
Qed.

Lemma connect_keeps_read (rpc : string → result block)
    (read_fails : string → Z → bool)
    (primary_commit fee_commit : option error) (s : store)
    (blockId : string) (height : Z) (k : op_key) :
  is_Some (read s k) →
  is_Some (read (out_store
                   (connect rpc read_fails primary_commit fee_commit s blockId height))
             k).
Proof.
  intros Hk. unfold connect. destruct (rpc blockId) as [b|e]; [|done].
  case_decide; [done|].
  pose proof (connect_log_puts blockId height b) as Hputs.
  destruct (connect_log blockId height b) as [atomic events].
  cbn [fst] in Hputs.
  destruct primary_commit; [done|]. cbn [write].
  assert (is_Some (read (apply_batch s atomic) k)) as Hk1.
  { apply puts_keep_rows; [|done].
    eapply Forall_impl; [exact Hputs|]. by intros o [? _]. }
  unfold connect2ndOrder.
  destruct (feeRates _ _) as [rates|e]; cbn [mbind result_bind]; [|done].
  destruct fee_commit; [done|]. cbn [write out_store].
  apply puts_keep_rows; [|done]. by repeat constructor.
Qed.

(** X7. CONNECT never removes a row: whatever the RPC answers and
    however the two commits end, every key that has a row in TxIndex,
    TxoIndex, SpentIndex, ScriptIndex or FeeIndex, and the Tip if there is
    one, still has a row afterwards. *)
Theorem connect_never_deletes (rpc : string → result block)
    (read_fails : string → Z → bool)
    (primary_commit fee_commit : option error) (s : store)
    (blockId : string) (height : Z) :
  let s' :=
    out_store (connect rpc read_fails primary_commit fee_commit s blockId height) in
  (∀ k, is_Some (txIndex s !! k) → is_Some (txIndex s' !! k))
  ∧ (∀ k, is_Some (txoIndex s !! k) → is_Some (txoIndex s' !! k))
  ∧ (∀ k, is_Some (spentIndex s !! k) → is_Some (spentIndex s' !! k))
  ∧ (∀ k, is_Some (scIndex s !! k) → is_Some (scIndex s' !! k))
  ∧ (∀ k, is_Some (feeIndex s !! k) → is_Some (feeIndex s' !! k))
  ∧ (is_Some (tipRow s) → is_Some (tipRow s')).
Proof.
  intros s'.
  pose proof (connect_keeps_read rpc read_fails primary_commit fee_commit s blockId
                height) as Hkeep. fold s' in Hkeep.
  split_and!.
  - intros k Hk. specialize (Hkeep (KTx k)). simpl in Hkeep.
    rewrite !fmap_is_Some in Hkeep. auto.
  - intros k Hk. specialize (Hkeep (KTxo k)). simpl in Hkeep.
    rewrite !fmap_is_Some in Hkeep. auto.
  - intros k Hk. specialize (Hkeep (KSpent k)). simpl in Hkeep.
    rewrite !fmap_is_Some in Hkeep. auto.
  - intros k Hk. specialize (Hkeep (KSc k)). simpl in Hkeep.
    rewrite !fmap_is_Some in Hkeep. auto.
  - intros k Hk. specialize (Hkeep (KFee k)). simpl in Hkeep.
    rewrite !fmap_is_Some in Hkeep. auto.
  - intros Hk. specialize (Hkeep KTip). simpl in Hkeep.
    rewrite !fmap_is_Some in Hkeep. auto.
Qed.

(** X8. CONNECT of a block without transactions succeeds: it sets the
    Tip, writes the fee summary (0, 0, 0) with the block's size at the
    block's height, leaves the other four indexes as they were, hands
    [nextblockhash] to the callback and emits the block event alone. *)
Theorem connect_empty_block (rpc : string → result block)
    (read_fails : string → Z → bool) (s : store)
    (blockId : string) (b : block) :
  rpc blockId = Ok b →
  transactions b = [] →
  connect rpc read_fails None None s blockId (blk_height b) =
    {| out_store :=
         {| tipRow := Some {| tip_blockId := blockId;
                              tip_height := blk_height b |};
            txIndex := txIndex s; txoIndex := txoIndex s;
            spentIndex := spentIndex s; scIndex := scIndex s;
            feeIndex :=
              <[blk_height b :=
                  {| fee_fees := {| q1 := Some 0; median := Some 0;
                                    q3 := Some 0 |};
                     fee_size := blk_size b |}]> (feeIndex s) |};
       out_err := None;
       out_value := nextblockhash b;
       out_emitted := [EvBlock blockId (blk_height b)] |}.
Proof.
  intros Hrpc Hempty. unfold connect. rewrite Hrpc.
  rewrite decide_False by (intros H; by apply H).
  unfold connect_log, connect2ndOrder. by rewrite Hempty.
Qed.

Lemma connect_empty_block_witness :
  out_emitted
    (connect (λ _, Ok (Block 7 80 "parent" None [])) reads_ok None None empty_store
       "b7" 7)
  = [EvBlock "b7" 7].
Proof.
  pose proof (connect_empty_block (λ _, Ok (Block 7 80 "parent" None []))
                reads_ok empty_store "b7" (Block 7 80 "parent" None [])
                eq_refl eq_refl) as H.
  simpl in H. by rewrite H.
Defined.

(** X9. CONNECT changes FeeIndex at the block's height at most: the fee
    row of every other height is what it was, whatever the RPC answers
    and however the commits end. *)
Theorem connect_fee_rows_elsewhere (rpc : string → result block)
    (read_fails : string → Z → bool)
    (primary_commit fee_commit : option error) (s : store)
    (blockId : string) (height h : Z) :
  h ≠ height →
  feeIndex
    (out_store (connect rpc read_fails primary_commit fee_commit s blockId height)) !! h
  = feeIndex s !! h.
Proof.
  intros Hne. unfold connect. destruct (rpc blockId) as [b|e]; [|done].
  case_decide as Heq; [done|].
  pose proof (connect_log_puts blockId height b) as Hputs.
  destruct (connect_log blockId height b) as [atomic events].
  cbn [fst] in Hputs.
  destruct primary_commit; [done|]. cbn [write].
  assert (feeIndex (apply_batch s atomic) !! h = feeIndex s !! h) as Hfee.
  { assert (read (apply_batch s atomic) (KFee h) = read s (KFee h)) as Hread.
    { apply read_apply_batch_untouched.
      intros (o & Hkey & Ho)%list_elem_of_fmap.
      rewrite Forall_forall in Hputs.
      destruct (Hputs o Ho) as [_ Hnofee]. by apply (Hnofee h). }
    simpl in Hread.
    destruct (feeIndex _ !! h), (feeIndex s !! h); simpl in *; congruence. }
  unfold connect2ndOrder.
  destruct (feeRates _ _) as [rates|e]; cbn [mbind result_bind]; [|done].
  destruct fee_commit; [done|]. cbn [write out_store].
  unfold apply_batch at 1. cbn [foldl apply_op feeIndex].
  rewrite lookup_insert_ne by congruence. done.
Qed.

Lemma connect_fee_rows_elsewhere_witness :
  feeIndex (out_store (connect Scenario.rpc reads_ok None None Scenario.s0 "b1" 1)) !! 0
  = feeIndex Scenario.s0 !! 0.
Proof.
  apply (connect_fee_rows_elsewhere Scenario.rpc reads_ok None None Scenario.s0 "b1"
           1 0).
  lia.
Defined.

(** ** Numbers: integers below 2^53 in binary64 arithmetic *)

Section Numbers.
Import SpecFloat.

Lemma digits2_pos_spec (p : positive) : Z.pos (digits2_pos p) = Z.log2 (Z.pos p) + 1.
Proof.
  induction p as [p IH|p IH|]; simpl digits2_pos.
  - rewrite Pos2Z.inj_succ, IH. rewrite (Pos2Z.inj_xI p), Z.log2_succ_double by lia. lia.
  - rewrite Pos2Z.inj_succ, IH. rewrite (Pos2Z.inj_xO p), Z.log2_double by lia. lia.
  - reflexivity.
Qed.

Lemma digits2_pos_bounds (p : positive) :
  2 ^ (Z.pos (digits2_pos p) - 1) ≤ Z.pos p < 2 ^ Z.pos (digits2_pos p).
Proof.
  rewrite digits2_pos_spec.
  pose proof (Z.log2_spec (Z.pos p) ltac:(lia)) as H.
  replace (Z.log2 (Z.pos p) + 1 - 1) with (Z.log2 (Z.pos p)) by lia.
  replace (Z.log2 (Z.pos p) + 1) with (Z.succ (Z.log2 (Z.pos p))) by lia. done.
Qed.

Lemma pos_iter_xO (p k : positive) : Z.pos (Pos.iter xO p k) = Z.pos p * 2 ^ Z.pos k.
Proof.
  revert p. induction k as [|k IH] using Pos.peano_ind; intros p.
  - simpl. lia.
  - rewrite Pos.iter_succ, Pos2Z.inj_xO, IH, Pos2Z.inj_succ, Z.pow_succ_r by lia. lia.
Qed.

Lemma iter_pos_comm {A} (f : A → A) (n : positive) (x : A) :
  iter_pos f n (f x) = f (iter_pos f n x).
Proof.
  revert x. induction n as [n IH|n IH|]; intros x; simpl; [| |done];
    by rewrite !IH.
Qed.

Lemma iter_pos_succ {A} (f : A → A) (n : positive) (x : A) :
  iter_pos f (Pos.succ n) x = f (iter_pos f n x).
Proof.
  revert x. induction n as [n IH|n IH|]; intros x; simpl; [| |done].
  - by rewrite !IH, !iter_pos_comm.
  - by rewrite !iter_pos_comm.
Qed.

(** Shifting out [n] zero bits is exact. *)
Lemma shr_exact (q n : positive) :
  iter_pos shr_1 n {| shr_m := Z.pos q * 2 ^ Z.pos n; shr_r := false; shr_s := false |}
  = {| shr_m := Z.pos q; shr_r := false; shr_s := false |}.
Proof.
  revert q. induction n as [|n IH] using Pos.peano_ind; intros q.
  - replace (Z.pos q * 2 ^ 1) with (Z.pos q~0) by lia. done.
  - rewrite iter_pos_succ, <- iter_pos_comm.
    rewrite Pos2Z.inj_succ, Z.pow_succ_r by lia.
    replace (Z.pos q * (2 * 2 ^ Z.pos n)) with (Z.pos (q~0) * 2 ^ Z.pos n) by lia.
    assert (shr_1 {| shr_m := Z.pos q~0 * 2 ^ Z.pos n; shr_r := false; shr_s := false |}
            = {| shr_m := Z.pos q * 2 ^ Z.pos n; shr_r := false; shr_s := false |}) as ->.
    { assert (∃ r, Z.pos q * 2 ^ Z.pos n = Z.pos r) as [r Hr].
      { exists (Z.to_pos (Z.pos q * 2 ^ Z.pos n)). rewrite Z2Pos.id; [done|].
        apply Z.mul_pos_pos; [lia|]. apply Z.pow_pos_nonneg; lia. }
      replace (Z.pos q~0 * 2 ^ Z.pos n) with (Z.pos (r~0)) by lia.
      simpl. by rewrite Hr. }
    apply IH.
Qed.

Lemma digits2_pos_shift (p : positive) (k : Z) (P : positive) :
  0 ≤ k → Z.pos P = Z.pos p * 2 ^ k →
  Z.pos (digits2_pos P) = Z.pos (digits2_pos p) + k.
Proof.
  intros Hk HP. rewrite !digits2_pos_spec, HP.
  rewrite Z.log2_mul_pow2 by lia. lia.
Qed.

Lemma fexp_small (d : Z) : -1021 ≤ d → fexp 53 1024 d = d - 53.
Proof. intros Hd. unfold fexp, emin. lia. Qed.

(** Rounding a mantissa of exactly 53 bits changes nothing. *)
Lemma round_aux_canonical (s : bool) (m : positive) (e : Z) :
  Z.pos (digits2_pos m) = 53 → -1074 ≤ e ≤ 971 →
  binary_round_aux 53 1024 s (Z.pos m) e loc_Exact = S754_finite s m e.
Proof.
  intros Hd He. unfold binary_round_aux, shr_fexp. cbn [Zdigits2 shr_record_of_loc].
  rewrite Hd, fexp_small by lia.
  replace (53 + e - 53 - e) with 0 by lia. cbn [shr shr_m loc_of_shr_record round_nearest_even].
  cbn [Zdigits2]. rewrite Hd, fexp_small by lia.
  replace (53 + e - 53 - e) with 0 by lia. cbn [shr shr_m shr_record_of_loc].
  destruct (Z.leb_spec e (1024 - 53)); [done|lia].
Qed.

Lemma round_exact (s : bool) (P p : positive) (k : Z) :
  0 ≤ k → k ≤ 1000 → Z.pos P = Z.pos p * 2 ^ k → Z.pos p < 2 ^ 53 →
  binary_round 53 1024 s P (- k) = canon s p.
Proof.
  intros Hk Hk' HP Hp.
  pose proof (digits2_pos_shift p k P Hk HP) as HdP.
  pose proof (digits2_pos_bounds p) as Hdp.
  set (d := Z.pos (digits2_pos p)) in *.
  assert (1 ≤ d ≤ 53) as Hd.
  { split; [unfold d; lia|].
    destruct (decide (d ≤ 53)); [done|].
    assert (2 ^ 53 ≤ 2 ^ (d - 1)) by (apply Z.pow_le_mono_r; lia). lia. }
  set (m := Z.to_pos (Z.pos p * 2 ^ (53 - d))).
  assert (Z.pos m = Z.pos p * 2 ^ (53 - d)) as Hm.
  { unfold m. rewrite Z2Pos.id; [done|].
    apply Z.mul_pos_pos; [lia|]. apply Z.pow_pos_nonneg; lia. }
  assert (Z.pos (digits2_pos m) = 53) as Hdm.
  { rewrite (digits2_pos_shift p (53 - d) m); [fold d; lia|lia|done]. }
  unfold canon. fold d m.
  unfold binary_round. rewrite HdP. fold d.
  replace (d + k + - k) with d by lia. rewrite fexp_small by lia.
  unfold shl_align.
  destruct (d - 53 - - k) as [|t|t] eqn:Ht.
  - assert (Z.pos P = Z.pos m) as Heq
      by (rewrite HP, Hm; f_equal; f_equal; lia).
    injection Heq as ->.
    replace (- k) with (d - 53) by lia. apply round_aux_canonical; [done|lia].
  - (* shift right by t *)
    unfold binary_round_aux, shr_fexp. cbn [Zdigits2 shr_record_of_loc].
    rewrite HdP. fold d. replace (d + k + - k) with d by lia.
    rewrite fexp_small by lia. rewrite Ht. cbn [shr].
    assert (Z.pos P = Z.pos m * 2 ^ Z.pos t) as ->.
    { rewrite HP, Hm, <- Z.mul_assoc, <- Z.pow_add_r by lia. f_equal. f_equal. lia. }
    rewrite shr_exact. cbn [shr_m loc_of_shr_record round_nearest_even Zdigits2].
    rewrite Hdm. replace (- k + Z.pos t) with (d - 53) by lia.
    rewrite fexp_small by lia.
    replace (53 + (d - 53) - 53 - (d - 53)) with 0 by lia. cbn [shr shr_m shr_record_of_loc].
    destruct (Z.leb_spec (d - 53) (1024 - 53)); [done|lia].
  - assert (Z.pos (Pos.iter xO P t) = Z.pos m) as Heq.
    { rewrite pos_iter_xO, HP, Hm, <- Z.mul_assoc, <- Z.pow_add_r by lia.
      f_equal. f_equal. lia. }
    injection Heq as ->. apply round_aux_canonical; [done|lia].
Qed.

Lemma to_number_pos (p : positive) :
  Z.pos p < 2 ^ 53 → to_number (Z.pos p) = canon false p.
Proof.
  intros Hp. unfold to_number, binary_normalize.
  apply (round_exact false p p 0); [lia|lia|lia|done].
Qed.

Lemma to_number_neg (p : positive) :
  Z.pos p < 2 ^ 53 → to_number (Z.neg p) = canon true p.
Proof.
  intros Hp. unfold to_number, binary_normalize.
  apply (round_exact true p p 0); [lia|lia|lia|done].
Qed.

(** Normalising an integer that carries [k] extra zero bits. *)
Lemma normalize_exact (z k : Z) :
  Z.abs z < 2 ^ 53 → 0 ≤ k ≤ 1000 →
  binary_normalize 53 1024 (z * 2 ^ k) (- k) false = to_number z.
Proof.
  intros Hz Hk. destruct z as [|p|p].
  - done.
  - rewrite to_number_pos by lia.
    assert (∃ P, Z.pos p * 2 ^ k = Z.pos P) as [P HP].
    { exists (Z.to_pos (Z.pos p * 2 ^ k)). rewrite Z2Pos.id; [done|].
      apply Z.mul_pos_pos; [lia|]. apply Z.pow_pos_nonneg; lia. }
    rewrite HP. cbn [binary_normalize]. apply round_exact; [lia|lia|done|lia].
  - rewrite to_number_neg by lia.
    assert (∃ P, Z.pos p * 2 ^ k = Z.pos P) as [P HP].
    { exists (Z.to_pos (Z.pos p * 2 ^ k)). rewrite Z2Pos.id; [done|].
      apply Z.mul_pos_pos; [lia|]. apply Z.pow_pos_nonneg; lia. }
    replace (Z.neg p * 2 ^ k) with (Z.neg P) by lia.
    cbn [binary_normalize]. apply round_exact; [lia|lia|done|lia].
Qed.

Lemma canon_align (s : bool) (p : positive) (ez : Z) :
  Z.pos p < 2 ^ 53 →
  ez ≤ Z.pos (digits2_pos p) - 53 →
  cond_Zopp s
    (Z.pos (shl_align (Z.to_pos (Z.pos p * 2 ^ (53 - Z.pos (digits2_pos p))))
              (Z.pos (digits2_pos p) - 53) ez).1)
  = cond_Zopp s (Z.pos p) * 2 ^ (- ez).
Proof.
  intros Hp Hez.
  pose proof (digits2_pos_bounds p) as Hdp.
  set (d := Z.pos (digits2_pos p)) in *.
  assert (1 ≤ d ≤ 53) as Hd.
  { split; [unfold d; lia|].
    destruct (decide (d ≤ 53)); [done|].
    assert (2 ^ 53 ≤ 2 ^ (d - 1)) by (apply Z.pow_le_mono_r; lia). lia. }
  set (m := Z.to_pos (Z.pos p * 2 ^ (53 - d))).
  assert (Z.pos m = Z.pos p * 2 ^ (53 - d)) as Hm.
  { unfold m. rewrite Z2Pos.id; [done|].
    apply Z.mul_pos_pos; [lia|]. apply Z.pow_pos_nonneg; lia. }
  assert (Z.pos (shl_align m (d - 53) ez).1 = Z.pos p * 2 ^ (- ez)) as ->.
  { unfold shl_align. destruct (ez - (d - 53)) as [|t|t] eqn:Ht; cbn [fst].
    - rewrite Hm. f_equal. f_equal. lia.
    - lia.
    - rewrite pos_iter_xO, Hm, <- Z.mul_assoc, <- Z.pow_add_r by lia.
      f_equal. f_equal. lia. }
  destruct s; simpl; lia.
Qed.

Lemma to_number_nonzero (z : Z) :
  z ≠ 0 → Z.abs z < 2 ^ 53 →
  ∃ s p, to_number z = canon s p ∧ cond_Zopp s (Z.pos p) = z ∧ Z.pos p < 2 ^ 53.
Proof.
  intros Hz Hb. destruct z as [|p|p]; [done|..].
  - exists false, p. rewrite to_number_pos by lia. split_and!; [done|done|lia].
  - exists true, p. rewrite to_number_neg by lia. split_and!; [done|done|lia].
Qed.

Lemma canon_exp_bounds (p : positive) :
  Z.pos p < 2 ^ 53 → -52 ≤ Z.pos (digits2_pos p) - 53 ≤ 0.
Proof.
  intros Hp. pose proof (digits2_pos_bounds p) as Hdp.
  split; [lia|].
  destruct (decide (Z.pos (digits2_pos p) ≤ 53)); [lia|].
  assert (2 ^ 53 ≤ 2 ^ (Z.pos (digits2_pos p) - 1))
    by (apply Z.pow_le_mono_r; lia). lia.
Qed.

(** Sums and differences of integers are exact as long as they stay
    below 2^53 in magnitude. *)
Lemma number_add_exact (x y : Z) :
  Z.abs x < 2 ^ 53 → Z.abs y < 2 ^ 53 → Z.abs (x + y) < 2 ^ 53 →
  number_add (to_number x) (to_number y) = to_number (x + y).
Proof.
  intros Hx Hy Hxy.
  destruct (decide (x = 0)) as [->|Hx0].
  { destruct (decide (y = 0)) as [->|Hy0]; [done|].
    rewrite Z.add_0_l.
    destruct (to_number_nonzero y Hy0 Hy) as (s & p & Hc & _). by rewrite Hc. }
  destruct (decide (y = 0)) as [->|Hy0].
  { rewrite Z.add_0_r.
    destruct (to_number_nonzero x Hx0 Hx) as (s & p & Hc & _). by rewrite Hc. }
  destruct (to_number_nonzero x Hx0 Hx) as (sx & px & -> & <- & Hpx).
  destruct (to_number_nonzero y Hy0 Hy) as (sy & py & -> & <- & Hpy).
  pose proof (canon_exp_bounds px Hpx). pose proof (canon_exp_bounds py Hpy).
  unfold number_add, canon, SFadd.
  set (ez := Z.min _ _).
  rewrite !canon_align by (try done; unfold ez; lia).
  rewrite <- Z.mul_add_distr_r.
  replace ez with (- - ez) at 2 by lia.
  apply normalize_exact; [done|unfold ez; lia].
Qed.

Lemma number_sub_exact (x y : Z) :
  Z.abs x < 2 ^ 53 → Z.abs y < 2 ^ 53 → Z.abs (x - y) < 2 ^ 53 →
  number_sub (to_number x) (to_number y) = to_number (x - y).
Proof.
  intros Hx Hy Hxy.
  destruct (decide (y = 0)) as [->|Hy0].
  { rewrite Z.sub_0_r. destruct (decide (x = 0)) as [->|Hx0]; [done|].
    destruct (to_number_nonzero x Hx0 Hx) as (s & p & Hc & _). by rewrite Hc. }
  destruct (decide (x = 0)) as [->|Hx0].
  { destruct y as [|p|p]; [done|..].
    - change (0 - Z.pos p) with (Z.neg p).
      rewrite to_number_pos, to_number_neg by lia. done.
    - change (0 - Z.neg p) with (Z.pos p).
      rewrite to_number_pos, to_number_neg by lia. done. }
  destruct (to_number_nonzero x Hx0 Hx) as (sx & px & -> & <- & Hpx).
  destruct (to_number_nonzero y Hy0 Hy) as (sy & py & -> & <- & Hpy).
  pose proof (canon_exp_bounds px Hpx). pose proof (canon_exp_bounds py Hpy).
  unfold number_sub, canon, SFsub.
  set (ez := Z.min _ _).
  rewrite !canon_align by (try done; unfold ez; lia).
  rewrite <- Z.mul_sub_distr_r.
  replace ez with (- - ez) at 2 by lia.
  apply normalize_exact; [done|unfold ez; lia].
Qed.

Lemma new_location_spec (m r : Z) :
  0 ≤ r < m →
  match new_location m r with
  | loc_Exact => r = 0
  | loc_Inexact Lt => r ≠ 0 ∧ 2 * r < m
  | loc_Inexact Eq => r ≠ 0 ∧ 2 * r = m
  | loc_Inexact Gt => m < 2 * r
  end.
Proof.
  intros Hr. unfold new_location, new_location_even, new_location_odd.
  destruct (Z.even m) eqn:Hev; destruct (Z.eqb_spec r 0) as [|Hr0]; try done.
  - destruct (Z.compare_spec (2 * r) m); cbv beta iota; lia.
  - rewrite <- Z.negb_odd in Hev. apply negb_false_iff, Z.odd_spec in Hev as [k ->].
    destruct (Z.compare_spec (2 * r + 1) (2 * k + 1)); cbv beta iota; lia.
Qed.

Lemma digits2_pos_eq (p : positive) (n : Z) :
  2 ^ (n - 1) ≤ Z.pos p < 2 ^ n → Z.pos (digits2_pos p) = n.
Proof.
  intros Hp. pose proof (digits2_pos_bounds p) as Hd.
  set (D := Z.pos (digits2_pos p)) in *.
  assert (0 < D) by (unfold D; lia).
  destruct (Z.lt_trichotomy D n) as [Hlt|[Heq|Hgt]]; [|done|].
  - assert (2 ^ D ≤ 2 ^ (n - 1)) by (apply Z.pow_le_mono_r; lia). lia.
  - destruct (decide (0 ≤ n)).
    + assert (2 ^ n ≤ 2 ^ (D - 1)) by (apply Z.pow_le_mono_r; lia). lia.
    + rewrite (Z.pow_neg_r 2 n) in Hp by lia. lia.
Qed.

Lemma shr_fexp_53 (m : positive) (e : Z) (l : location) :
  Z.pos (digits2_pos m) = 53 → -1000 ≤ e →
  shr_fexp 53 1024 (Z.pos m) e l = (shr_record_of_loc (Z.pos m) l, e).
Proof.
  intros Hd He. unfold shr_fexp. cbn [Zdigits2]. rewrite Hd, fexp_small by lia.
  replace (53 + e - 53 - e) with 0 by lia. done.
Qed.

Lemma shr_fexp_54 (m : positive) (e : Z) (l : location) :
  Z.pos (digits2_pos m) = 54 → -1000 ≤ e →
  shr_fexp 53 1024 (Z.pos m) e l
  = (shr_1 (shr_record_of_loc (Z.pos m) l), e + 1).
Proof.
  intros Hd He. unfold shr_fexp. cbn [Zdigits2]. rewrite Hd, fexp_small by lia.
  replace (54 + e - 53 - e) with 1 by lia. done.
Qed.

Lemma shr_fexp_finish (m : positive) (e : Z) :
  2 ^ 52 ≤ Z.pos m ≤ 2 ^ 53 → -1000 ≤ e →
  ∃ mrs m' e', shr_fexp 53 1024 (Z.pos m) e loc_Exact = (mrs, e') ∧
    shr_m mrs = Z.pos m' ∧ e ≤ e' ≤ e + 1 ∧ Z.pos m' * 2 ^ (e' - e) = Z.pos m.
Proof.
  intros Hm He. destruct (decide (Z.pos m = 2 ^ 53)) as [Heq|Hne].
  - assert (m = 9007199254740992%positive) as ->
      by (apply Pos2Z.inj; rewrite Heq; reflexivity).
    eexists _, 4503599627370496%positive, (e + 1).
    rewrite shr_fexp_54 by (reflexivity || lia).
    split_and!; [reflexivity|reflexivity|lia|lia|].
    replace (e + 1 - e) with 1 by lia. reflexivity.
  - eexists _, m, e.
    rewrite shr_fexp_53 by (try lia; apply digits2_pos_eq; lia).
    split_and!; [reflexivity|reflexivity|lia|lia|].
    replace (e - e) with 0 by lia. lia.
Qed.

(** Rounding a quotient of 53 or 54 bits to nearest-even: the result is
    one of the two neighbours on the 53-bit grid, the side depending on
    the remainder's location. *)
Lemma round_aux_near (s : bool) (q : positive) (e : Z) (l : location) :
  2 ^ 52 ≤ Z.pos q < 2 ^ 54 → -1000 ≤ e ≤ 900 →
  ∃ m' e', binary_round_aux 53 1024 s (Z.pos q) e l = S754_finite s m' e' ∧
    e ≤ e' ∧
    ((Z.pos q < 2 ^ 53 ∧
      ((Z.pos m' * 2 ^ (e' - e) = Z.pos q ∧ l ≠ loc_Inexact Gt) ∨
       (Z.pos m' * 2 ^ (e' - e) = Z.pos q + 1 ∧ l ≠ loc_Exact ∧ l ≠ loc_Inexact Lt)))
     ∨ (2 ^ 53 ≤ Z.pos q ∧
      ((Z.pos m' * 2 ^ (e' - e) = Z.pos q - Z.pos q `mod` 2 ∧
        (Z.pos q `mod` 2 = 0 ∨ l = loc_Exact)) ∨
       (Z.pos m' * 2 ^ (e' - e) = Z.pos q + 1 ∧ Z.pos q `mod` 2 = 1)))).
Proof.
  intros Hq He.
  destruct (decide (Z.pos q < 2 ^ 53)) as [Hlt|Hge].
  - assert (Z.pos (digits2_pos q) = 53) as Hd by (apply digits2_pos_eq; lia).
    unfold binary_round_aux. rewrite shr_fexp_53 by (done || lia).
    assert (∃ mB, round_nearest_even (shr_m (shr_record_of_loc (Z.pos q) l))
                    (loc_of_shr_record (shr_record_of_loc (Z.pos q) l)) = Z.pos mB ∧
              ((mB = q ∧ l ≠ loc_Inexact Gt) ∨
               (Z.pos mB = Z.pos q + 1 ∧ l ≠ loc_Exact ∧ l ≠ loc_Inexact Lt)))
      as (mB & -> & HmB).
    { destruct l as [|[]];
        cbn [shr_record_of_loc shr_m loc_of_shr_record round_nearest_even].
      - exists q. split; [done|]. by left.
      - destruct (Z.even (Z.pos q)).
        + exists q. split; [done|]. by left.
        + exists (q + 1)%positive. split; [done|]. right. split_and!; [lia|done|done].
      - exists q. split; [done|]. by left.
      - exists (q + 1)%positive. split; [done|]. right. split_and!; [lia|done|done]. }
    destruct (shr_fexp_finish mB e) as (mrs & m' & e' & Hs & Hm' & He' & HW);
      [lia|lia|].
    rewrite Hs, Hm'. destruct (Z.leb_spec e' (1024 - 53)); [|lia].
    exists m', e'. split_and!; [done|lia|]. left. split; [done|].
    destruct HmB as [[-> ?]|(? & ? & ?)]; [left|right]; split_and!; try done; lia.
  - assert (Z.pos (digits2_pos q) = 54) as Hd by (apply digits2_pos_eq; lia).
    unfold binary_round_aux. rewrite shr_fexp_54 by (done || lia).
    assert (∃ mB, round_nearest_even (shr_m (shr_1 (shr_record_of_loc (Z.pos q) l)))
                    (loc_of_shr_record (shr_1 (shr_record_of_loc (Z.pos q) l))) = Z.pos mB ∧
              2 ^ 52 ≤ Z.pos mB ≤ 2 ^ 53 ∧
              ((2 * Z.pos mB = Z.pos q - Z.pos q `mod` 2 ∧
                (Z.pos q `mod` 2 = 0 ∨ l = loc_Exact)) ∨
               (2 * Z.pos mB = Z.pos q + 1 ∧ Z.pos q `mod` 2 = 1)))
      as (mB & -> & HmBb & HmB).
    { destruct q as [p|p|]; [| |lia].
      - assert (Z.pos p~1 `mod` 2 = 1) as Hodd
          by (rewrite Pos2Z.inj_xI; Z.div_mod_to_equations; lia).
        rewrite Hodd.
        destruct l as [|[]];
          cbn [shr_record_of_loc shr_1 orb shr_m shr_r shr_s loc_of_shr_record
               round_nearest_even].
        + destruct (Z.even (Z.pos p)).
          * exists p. split; [done|]. split; [lia|]. left. split; [lia|by right].
          * exists (p + 1)%positive. split; [done|]. split; [lia|]. right. lia.
        + exists (p + 1)%positive. split; [done|]. split; [lia|]. right. lia.
        + exists (p + 1)%positive. split; [done|]. split; [lia|]. right. lia.
        + exists (p + 1)%positive. split; [done|]. split; [lia|]. right. lia.
      - assert (Z.pos p~0 `mod` 2 = 0) as Hev
          by (rewrite Pos2Z.inj_xO; Z.div_mod_to_equations; lia).
        rewrite Hev. exists p. split.
        { destruct l as [|[]]; reflexivity. }
        split; [lia|]. left. split; [lia|left; lia]. }
    destruct (shr_fexp_finish mB (e + 1)) as (mrs & m' & e' & Hs & Hm' & He' & HW);
      [lia|lia|].
    rewrite Hs, Hm'. destruct (Z.leb_spec e' (1024 - 53)); [|lia].
    exists m', e'. split_and!; [done|lia|]. right. split; [lia|].
    assert (Z.pos m' * 2 ^ (e' - e) = 2 * Z.pos mB) as ->.
    { replace (e' - e) with (e' - (e + 1) + 1) by lia.
      rewrite Z.pow_add_r by lia. lia. }
    done.
Qed.

Lemma Math_floor_scaled (s : bool) (m : positive) (e K : Z) :
  0 ≤ K → 0 ≤ e + K →
  Math_floor (S754_finite s m e) = cond_Zopp s (Z.pos m * 2 ^ (e + K)) `div` 2 ^ K.
Proof.
  intros HK HeK. unfold Math_floor.
  assert (2 ^ K ≠ 0) by (apply Z.pow_nonzero; lia).
  case_decide.
  - replace (Z.pos m * 2 ^ (e + K)) with (Z.pos m * 2 ^ e * 2 ^ K)
      by (rewrite Z.pow_add_r by lia; lia).
    destruct s; cbn [cond_Zopp].
    + by rewrite <- (Z.mul_opp_l _ (2 ^ K)), Z.div_mul.
    + by rewrite Z.div_mul.
  - assert (2 ^ (- e) ≠ 0) by (apply Z.pow_nonzero; lia).
    assert (2 ^ (e + K) ≠ 0) by (apply Z.pow_nonzero; lia).
    replace (2 ^ K) with (2 ^ (- e) * 2 ^ (e + K))
      by (rewrite <- Z.pow_add_r by lia; f_equal; lia).
    destruct s; cbn [cond_Zopp].
    + by rewrite <- (Z.mul_opp_l _ (2 ^ (e + K))), Z.div_mul_cancel_r.
    + by rewrite Z.div_mul_cancel_r.
Qed.

(** The integer heart of the division: a quotient rounded to the nearest
    53-bit value has the floor, and the ceiling, of the exact quotient. *)
Lemma nearest_floor (a d T' q rho W : Z) :
  0 < a < 2 ^ 53 → 0 < d → 1 ≤ T' →
  a * (2 * T') = q * d + rho → 0 ≤ rho < d → 2 ^ 52 ≤ q < 2 ^ 54 →
  ((q < 2 ^ 53 ∧ ((W = q ∧ 2 * rho ≤ d) ∨ (W = q + 1 ∧ d ≤ 2 * rho)))
   ∨ (2 ^ 53 ≤ q ∧ ((W = q - q `mod` 2 ∧ (q `mod` 2 = 0 ∨ rho = 0))
                     ∨ (W = q + 1 ∧ q `mod` 2 = 1)))) →
  W `div` (2 * T') = a `div` d ∧ (- W) `div` (2 * T') = (- a) `div` d.
Proof.
  intros Ha Hd HT HA Hrho Hq HW.
  change (2 ^ 52) with 4503599627370496 in *.
  change (2 ^ 53) with 9007199254740992 in *.
  change (2 ^ 54) with 18014398509481984 in *.
  pose proof (Z.div_mod a d ltac:(lia)) as Hdiv.
  pose proof (Z.mod_pos_bound a d ltac:(lia)) as Hmod.
  set (N := a `div` d) in *. set (j := a `mod` d) in *.
  assert (0 ≤ N) by (apply Z.div_pos; lia).
  assert (q `mod` 2 = 0 ∨ q `mod` 2 = 1) as Hpar
    by (pose proof (Z.mod_pos_bound q 2); lia).
  destruct (decide (j = 0)) as [Hj|Hj].
  - (* the division is exact *)
    assert (rho = d * (N * (2 * T') - q)) as Hr by nia.
    assert (N * (2 * T') - q = 0) as Hq0 by nia.
    assert (rho = 0) by nia.
    assert (q `mod` 2 = 0) as Hev.
    { replace q with (0 + (N * T') * 2) by lia. by rewrite Z.mod_add. }
    assert (W = N * (2 * T')) as -> by lia.
    split.
    + by rewrite Z.div_mul by lia.
    + replace (- (N * (2 * T'))) with (- N * (2 * T')) by lia.
      rewrite Z.div_mul by lia.
      apply (Z.div_unique _ _ _ 0); lia.
  - (* the division leaves a remainder *)
    assert (d < 2 * (2 * T') ∧ (9007199254740992 ≤ q → d < 2 * T')) as [Hd1 Hd2] by nia.
    assert (N * (2 * T') < W < (N + 1) * (2 * T')) as HWb.
    { destruct HW as [[_ [[-> ?]|[-> ?]]]|[Hq53 [[-> ?]|[-> ?]]]]; nia. }
    split.
    + symmetry. apply (Z.div_unique _ _ _ (W - N * (2 * T'))); lia.
    + transitivity (- N - 1).
      * symmetry. apply (Z.div_unique _ _ _ ((N + 1) * (2 * T') - W)); lia.
      * apply (Z.div_unique _ _ _ (d - j)); lia.
Qed.

Lemma SFdiv_floor (sx : bool) (m1 m2 a d : positive) (e1 e2 : Z) :
  Z.pos (digits2_pos m1) = 53 → Z.pos (digits2_pos m2) = 53 →
  -52 ≤ e1 ≤ 0 → -52 ≤ e2 ≤ 0 →
  Z.pos m1 = Z.pos a * 2 ^ (- e1) → Z.pos m2 = Z.pos d * 2 ^ (- e2) →
  Math_floor (SFdiv 53 1024 (S754_finite sx m1 e1) (S754_finite false m2 e2))
  = cond_Zopp sx (Z.pos a) `div` Z.pos d.
Proof.
  intros Hd1 Hd2 He1 He2 Hm1 Hm2.
  set (K := 53 - e1 + e2).
  assert (SFdiv_core_binary 53 1024 (Z.pos m1) e1 (Z.pos m2) e2
          = (let '(q, r) := Z.div_eucl (Z.pos m1 * 2 ^ 53) (Z.pos m2) in
             (q, - K, new_location (Z.pos m2) r))) as Hcore.
  { unfold SFdiv_core_binary. cbn [Zdigits2]. rewrite Hd1, Hd2. cbv zeta.
    rewrite fexp_small by lia. rewrite Z.min_l by lia.
    replace (e1 - e2 - (53 + e1 - (53 + e2) - 53)) with 53 by lia.
    cbv beta iota. rewrite Z.shiftl_mul_pow2 by lia.
    replace (53 + e1 - (53 + e2) - 53) with (- K) by (unfold K; lia). done. }
  unfold SFdiv. rewrite Hcore. clear Hcore.
  pose proof (Z_div_mod (Z.pos m1 * 2 ^ 53) (Z.pos m2) ltac:(lia)) as Hqr.
  destruct (Z.div_eucl (Z.pos m1 * 2 ^ 53) (Z.pos m2)) as [q r].
  destruct Hqr as [Hqr Hr].
  pose proof (digits2_pos_bounds m1) as Hb1. rewrite Hd1 in Hb1.
  pose proof (digits2_pos_bounds m2) as Hb2. rewrite Hd2 in Hb2.
  change (53 - 1) with 52 in *.
  assert (2 ^ K = 2 * 2 ^ (K - 1)) as HK.
  { rewrite <- Z.pow_succ_r by (unfold K; lia). f_equal. lia. }
  assert (Z.pos m1 * 2 ^ 53 = Z.pos a * 2 ^ K * 2 ^ (- e2)) as HM.
  { rewrite Hm1, <- !Z.mul_assoc, <- !Z.pow_add_r by (unfold K; lia).
    f_equal. f_equal. unfold K. lia. }
  assert (0 < 2 ^ (- e2)) as Hc by (apply Z.pow_pos_nonneg; lia).
  assert (1 ≤ 2 ^ (K - 1)) as HT.
  { assert (0 < 2 ^ (K - 1)) by (apply Z.pow_pos_nonneg; unfold K; lia). lia. }
  assert (1 ≤ 2 ^ (- e1)) as Hc1.
  { assert (0 < 2 ^ (- e1)) by (apply Z.pow_pos_nonneg; lia). lia. }
  set (rho := Z.pos a * 2 ^ K - q * Z.pos d).
  assert (r = 2 ^ (- e2) * rho) as Hrho.
  { unfold rho. rewrite Z.mul_sub_distr_l.
    replace (2 ^ (- e2) * (Z.pos a * 2 ^ K)) with (Z.pos m1 * 2 ^ 53) by lia.
    replace (2 ^ (- e2) * (q * Z.pos d)) with (Z.pos m2 * q) by (rewrite Hm2; lia).
    lia. }
  pose proof (new_location_spec (Z.pos m2) r Hr) as Hloc.
  revert Hloc. generalize (new_location (Z.pos m2) r). intros l Hloc.
  generalize dependent (2 ^ (- e2)). intros c Hm2 HM Hc Hrho.
  generalize dependent (2 ^ (- e1)). intros c1 Hm1 Hc1.
  change (2 ^ 52) with 4503599627370496 in *.
  change (2 ^ 53) with 9007199254740992 in *.
  assert (4503599627370496 ≤ q < 18014398509481984) as Hq by nia.
  assert (0 ≤ rho < Z.pos d) as Hrb by nia.
  assert (Z.pos a < 9007199254740992) as Ha by nia.
  destruct q as [|qp|qp]; [lia| |lia].
  cbv beta iota. rewrite xorb_false_r.
  destruct (round_aux_near sx qp (- K) l) as (m' & e' & -> & He' & HW);
    [done|unfold K; lia|].
  rewrite (Math_floor_scaled sx m' e' K) by (unfold K in *; lia).
  replace (e' + K) with (e' - - K) by lia.
  destruct (nearest_floor (Z.pos a) (Z.pos d) (2 ^ (K - 1)) (Z.pos qp) rho
              (Z.pos m' * 2 ^ (e' - - K))) as [Hpos Hneg];
    [lia|lia|done|unfold rho; lia|done|done| |].
  { destruct HW as [[Hlt HW]|[Hge HW]]; [left|right]; (split; [done|]).
    - destruct HW as [[-> Hl]|(-> & Hl1 & Hl2)]; [left|right]; (split; [done|]);
        destruct l as [|[]]; try done; nia.
    - destruct HW as [[-> Hl]|[-> Hl]]; [left|right]; (split; [done|]); [|done].
      destruct Hl as [? | ->]; [by left|right]. nia. }
  rewrite HK. destruct sx; cbn [cond_Zopp]; done.
Qed.

Lemma canon_mantissa (p : positive) :
  Z.pos p < 2 ^ 53 →
  Z.pos (Z.to_pos (Z.pos p * 2 ^ (53 - Z.pos (digits2_pos p))))
  = Z.pos p * 2 ^ (- (Z.pos (digits2_pos p) - 53))
  ∧ Z.pos (digits2_pos (Z.to_pos (Z.pos p * 2 ^ (53 - Z.pos (digits2_pos p))))) = 53.
Proof.
  intros Hp. pose proof (canon_exp_bounds p Hp) as Hd.
  set (d := Z.pos (digits2_pos p)) in *.
  set (m := Z.to_pos (Z.pos p * 2 ^ (53 - d))).
  assert (Z.pos m = Z.pos p * 2 ^ (53 - d)) as Hm.
  { unfold m. rewrite Z2Pos.id; [done|].
    apply Z.mul_pos_pos; [lia|]. apply Z.pow_pos_nonneg; lia. }
  split.
  - rewrite Hm. f_equal. f_equal. lia.
  - rewrite (digits2_pos_shift p (53 - d) m); [fold d; lia|lia|done].
Qed.

(** Dividing two integers below 2^53 and flooring gives the integer
    quotient rounded towards minus infinity. *)
Lemma floor_div_exact (f d : Z) :
  Z.abs f < 2 ^ 53 → 0 < d < 2 ^ 53 →
  Math_floor (number_div (to_number f) (to_number d)) = f `div` d.
Proof.
  intros Hf Hd. destruct d as [|pd|pd]; [lia| |lia].
  rewrite (to_number_pos pd) by lia.
  destruct (canon_mantissa pd) as [Hm2 Hd2]; [lia|].
  pose proof (canon_exp_bounds pd ltac:(lia)) as He2.
  destruct f as [|a|a].
  - done.
  - rewrite (to_number_pos a) by lia.
    destruct (canon_mantissa a) as [Hm1 Hd1]; [lia|].
    pose proof (canon_exp_bounds a ltac:(lia)) as He1.
    unfold number_div, canon.
    by rewrite (SFdiv_floor false _ _ a pd).
  - rewrite (to_number_neg a) by lia.
    destruct (canon_mantissa a) as [Hm1 Hd1]; [lia|].
    pose proof (canon_exp_bounds a ltac:(lia)) as He1.
    unfold number_div, canon.
    by rewrite (SFdiv_floor true _ _ a pd).
Qed.

End Numbers.

(** Above 2^53 the sums are those of binary64, not of the integers. *)
Example number_add_rounds :
  Math_floor (number_add (to_number (2 ^ 53)) (to_number (2 ^ 53 + 1)))
  = 2 ^ 54.
Proof. reflexivity. Qed.

Lemma total_nonneg (l : list Z) : Forall (λ v, 0 ≤ v) l → 0 ≤ total l.
Proof.
  unfold total. induction 1 as [|v l Hv _ IH]; simpl; lia.
Qed.

Lemma total_cons (v : Z) (l : list Z) : total (v :: l) = v + total l.
Proof. reflexivity. Qed.

Lemma outAccum_from (outputs : list output) (A : Z) :
  Forall (λ o, 0 ≤ value o) outputs →
  0 ≤ A → A + total (value <$> outputs) < 2 ^ 53 →
  foldl (λ acc o, number_add acc (to_number (value o))) (to_number A) outputs
  = to_number (A + total (value <$> outputs)).
Proof.
  intros Hall. revert A.
  induction Hall as [|o l Ho Hl IH]; intros A HA Hb.
  - simpl. f_equal. unfold total. simpl. lia.
  - rewrite fmap_cons, total_cons in *.
    pose proof (total_nonneg (value <$> l)) as Hn.
    rewrite Forall_fmap in Hn. specialize (Hn Hl).
    cbn [foldl]. rewrite number_add_exact by lia.
    rewrite IH by lia. f_equal. lia.
Qed.

Lemma outAccum_exact (outputs : list output) :
  Forall (λ o, 0 ≤ value o) outputs →
  total (value <$> outputs) < 2 ^ 53 →
  outAccum outputs = to_number (total (value <$> outputs)).
Proof.
  intros Hall Hb. unfold outAccum.
  by rewrite outAccum_from by (done || lia).
Qed.

Lemma inAccum_exact (read_fails : string → Z → bool) (s : store)
    (inputs : list input) (A : Z) :
  existsb coinbase inputs = false →
  Forall (λ i, read_fails (prevTxId i) (in_vout i) = false
               ∧ is_Some (txoIndex s !! (prevTxId i, in_vout i))) inputs →
  Forall (λ i, 0 ≤ consumed_value s i) inputs →
  0 ≤ A → A + total (consumed_value s <$> inputs) < 2 ^ 53 →
  inAccum read_fails s inputs (to_number A)
  = Ok (to_number (A + total (consumed_value s <$> inputs))).
Proof.
  intros Hcb Hall. revert A Hcb.
  induction Hall as [|i l [Hread [txo Hi]] Hl IH]; intros A Hcb Hpos HA Hb.
  - simpl. f_equal. f_equal. unfold total. simpl. lia.
  - simpl in Hcb. apply orb_false_iff in Hcb as [Hcbi Hcb].
    apply Forall_cons in Hpos as [Hv Hpos].
    rewrite fmap_cons, total_cons in *.
    pose proof (total_nonneg (consumed_value s <$> l)) as Hn.
    rewrite Forall_fmap in Hn. specialize (Hn Hpos).
    assert (consumed_value s i = txo_value txo) as Hval
      by (unfold consumed_value; by rewrite Hi).
    rewrite Hval in *.
    cbn [inAccum]. rewrite Hcbi, Hread, Hi.
    rewrite number_add_exact by lia.
    rewrite IH by (done || lia). f_equal. f_equal. lia.
Qed.

(** X10. For a transaction without coinbase input, whose inputs are all
    read without failure and found in TxoIndex, whose amounts are not
    negative and whose totals of consumed and produced values and whose
    [vsize] are below 2^53, the fee rate computed in binary64 is the sum
    of the consumed values minus the sum of the output values, divided by
    [vsize] and rounded down. *)
Theorem feeRate_formula (read_fails : string → Z → bool) (s : store)
    (tx : transaction) :
  existsb coinbase (ins tx) = false →
  Forall (λ i, read_fails (prevTxId i) (in_vout i) = false
               ∧ is_Some (txoIndex s !! (prevTxId i, in_vout i))) (ins tx) →
  Forall (λ i, 0 ≤ consumed_value s i) (ins tx) →
  Forall (λ o, 0 ≤ value o) (outs tx) →
  total (consumed_value s <$> ins tx) < 2 ^ 53 →
  total (value <$> outs tx) < 2 ^ 53 →
  Z.pos (vsize tx) < 2 ^ 53 →
  feeRate read_fails s tx =
    Ok ((total (consumed_value s <$> ins tx) - total (value <$> outs tx))
          `div` Z.pos (vsize tx)).
Proof.
  intros Hcb Hall Hin Hout Hbin Hbout Hvs. unfold feeRate. rewrite Hcb.
  pose proof (total_nonneg (consumed_value s <$> ins tx)) as Hni.
  rewrite Forall_fmap in Hni. specialize (Hni Hin).
  pose proof (total_nonneg (value <$> outs tx)) as Hno.
  rewrite Forall_fmap in Hno. specialize (Hno Hout).
  rewrite (inAccum_exact read_fails s (ins tx) 0) by (done || lia).
  cbn [mbind result_bind]. rewrite Z.add_0_l.
  rewrite outAccum_exact by done.
  rewrite number_sub_exact by lia.
  by rewrite floor_div_exact by lia.
Qed.

Lemma feeRate_formula_witness :
  feeRate reads_ok Scenario.s0 Scenario.tx1 = Ok 40.
Proof.
  rewrite (feeRate_formula reads_ok Scenario.s0 Scenario.tx1).
  - reflexivity.
  - reflexivity.
  - repeat constructor. by eexists.
  - repeat constructor; by vm_compute.
  - repeat constructor; by vm_compute.
  - by vm_compute.
  - by vm_compute.
  - by vm_compute.
Defined.

(** ** The fee pass *)

Lemma inAccum_err (read_fails : string → Z → bool) (s : store)
    (inputs : list input) (acc : number) (e : error) :
  inAccum read_fails s inputs acc = Err e →
  ∃ i, i ∈ inputs ∧ coinbase i = false
       ∧ ((read_fails (prevTxId i) (in_vout i) = true ∧ e = KvFailure)
          ∨ (read_fails (prevTxId i) (in_vout i) = false
             ∧ txoIndex s !! (prevTxId i, in_vout i) = None
             ∧ e = MissingTxo (prevTxId i) (in_vout i))).
Proof.
  revert acc. induction inputs as [|i l IH]; intros acc; csimpl; [done|].
  destruct (coinbase i) eqn:Hcb.
  - intros (i' & Hi' & ?)%IH. exists i'. split; [by right|done].
  - destruct (read_fails (prevTxId i) (in_vout i)) eqn:Hread.
    + intros [= <-]. exists i. split_and!; [by left|done|by left].
    + destruct (txoIndex s !! (prevTxId i, in_vout i)) eqn:Hi.
      * intros (i' & Hi' & ?)%IH. exists i'. split; [by right|done].
      * intros [= <-]. exists i. split_and!; [by left|done|by right].
Qed.

Lemma feeRates_err (read_fails : string → Z → bool) (s : store)
    (txs : list transaction) (e : error) :
  feeRates read_fails s txs = Err e →
  ∃ tx i, tx ∈ txs ∧ i ∈ ins tx ∧ coinbase i = false
          ∧ ((read_fails (prevTxId i) (in_vout i) = true ∧ e = KvFailure)
             ∨ (read_fails (prevTxId i) (in_vout i) = false
                ∧ txoIndex s !! (prevTxId i, in_vout i) = None
                ∧ e = MissingTxo (prevTxId i) (in_vout i))).
Proof.
  induction txs as [|tx l IH]; csimpl; [done|].
  destruct (feeRate read_fails s tx) as [r|e'] eqn:Hr;
    cbn [mbind result_bind].
  - destruct (feeRates read_fails s l) as [rs|e''];
      cbn [mbind result_bind]; [done|].
    intros [= <-]. destruct IH as (tx' & i & Htx' & ?); [done|].
    exists tx', i. split; [by right|done].
  - intros [= <-]. unfold feeRate in Hr.
    destruct (existsb coinbase (ins tx)); [done|].
    destruct (inAccum read_fails s (ins tx) (to_number 0)) as [a|e'']
      eqn:Ha; cbn [mbind result_bind] in Hr; [done|].
    injection Hr as <-. apply inAccum_err in Ha as (i & Hi & ?).
    exists tx, i. split; [by left|done].
Qed.

(** X11. When CONNECT, with both commits succeeding, ends in
    MissingTxo(p, v), then the block has a non-coinbase input that
    consumes the outpoint (p, v), and TxoIndex has no row for it in the
    store the call leaves behind (the primary batch included). *)
Theorem connect_missing_txo_is_absent (rpc : string → result block)
    (read_fails : string → Z → bool)
    (s : store) (blockId : string) (b : block) (p : string) (v : Z) :
  rpc blockId = Ok b →
  out_err (connect rpc read_fails None None s blockId (blk_height b))
    = Some (MissingTxo p v) →
  txoByTxo
    (out_store (connect rpc read_fails None None s blockId (blk_height b)))
    p v
    = None
  ∧ ∃ tx i, tx ∈ transactions b ∧ i ∈ ins tx ∧ coinbase i = false
            ∧ prevTxId i = p ∧ in_vout i = v.
Proof.
  intros Hrpc. unfold connect. rewrite Hrpc.
  rewrite decide_False by (intros H; by apply H).
  destruct (connect_log blockId (blk_height b) b) as [atomic events].
  cbn [write]. unfold connect2ndOrder.
  destruct (feeRates _ _ _) as [rates|e] eqn:Hrates;
    cbn [mbind result_bind write out_err out_store]; [done|].
  intros [= ->].
  apply feeRates_err in Hrates
    as (tx & i & Htx & Hi & Hcb & [[_ [=]]|(_ & Hnone & Heq)]).
  injection Heq as -> ->. split; [done|]. by exists tx, i.
Qed.

Lemma connect_missing_txo_is_absent_witness :
  txoByTxo
    (out_store (connect Scenario.rpc reads_ok None None empty_store "b1" 1))
    "tx0" 0
  = None.
Proof.
  apply (connect_missing_txo_is_absent Scenario.rpc reads_ok empty_store "b1"
           Scenario.b1 "tx0" 0).
  - reflexivity.
  - reflexivity.
Defined.

Lemma feeRates_ok (read_fails : string → Z → bool) (s : store)
    (txs : list transaction) :
  (∀ tx i, tx ∈ txs → i ∈ ins tx → coinbase i = false →
           read_fails (prevTxId i) (in_vout i) = false
           ∧ is_Some (txoIndex s !! (prevTxId i, in_vout i))) →
  ∃ rates, feeRates read_fails s txs = Ok rates.
Proof.
  induction txs as [|tx l IH]; intros Hall; csimpl; [by eexists|].
  destruct IH as [rs Hrs].
  { intros tx' i Htx'. apply Hall. by right. }
  rewrite Hrs.
  destruct (feeRate read_fails s tx) as [r|e] eqn:Hr;
    cbn [mbind result_bind]; [by eexists|].
  unfold feeRate in Hr. destruct (existsb coinbase (ins tx)); [done|].
  destruct (inAccum read_fails s (ins tx) (to_number 0)) as [a|e'] eqn:Ha;
    cbn [mbind result_bind] in Hr; [done|].
  apply inAccum_err in Ha as (i & Hi & Hcb & Hwhy).
  destruct (Hall tx i) as [Hread [txo Htxo]]; [by left|done|done|].
  destruct Hwhy as [[? _]|(_ & ? & _)]; congruence.
Qed.

(** X12. CONNECT succeeds when the body has the expected height, both
    commits succeed, and for every non-coinbase input of the block the
    read of its output succeeds and TxoIndex already holds that output:
    the callback gets no error and [nextblockhash]. *)
Theorem connect_succeeds (rpc : string → result block)
    (read_fails : string → Z → bool) (s : store)
    (blockId : string) (b : block) :
  rpc blockId = Ok b →
  (∀ tx i, tx ∈ transactions b → i ∈ ins tx → coinbase i = false →
           read_fails (prevTxId i) (in_vout i) = false
           ∧ is_Some (txoIndex s !! (prevTxId i, in_vout i))) →
  out_err (connect rpc read_fails None None s blockId (blk_height b)) = None
  ∧ out_value (connect rpc read_fails None None s blockId (blk_height b))
    = nextblockhash b.
Proof.
  intros Hrpc Hall. unfold connect. rewrite Hrpc.
  rewrite decide_False by (intros H; by apply H).
  pose proof (connect_log_puts blockId (blk_height b) b) as Hputs.
  destruct (connect_log blockId (blk_height b) b) as [atomic events].
  cbn [fst] in Hputs. cbn [write]. unfold connect2ndOrder.
  destruct (feeRates_ok read_fails (apply_batch s atomic) (transactions b))
    as [rs ->].
  { intros tx i Htx Hi Hcb. destruct (Hall tx i Htx Hi Hcb) as [Hread Hrow].
    split; [done|].
    pose proof (puts_keep_rows atomic s (KTxo (prevTxId i, in_vout i)))
      as Hkeep.
    simpl in Hkeep. rewrite !fmap_is_Some in Hkeep. apply Hkeep; [|done].
    eapply Forall_impl; [exact Hputs|]. by intros o [? _]. }
  done.
Qed.

Lemma connect_succeeds_witness :
  out_err (connect Scenario.rpc reads_ok None None Scenario.s0 "b1" 1) = None
  ∧ out_value (connect Scenario.rpc reads_ok None None Scenario.s0 "b1" 1)
    = None.
Proof.
  apply (connect_succeeds Scenario.rpc reads_ok Scenario.s0 "b1" Scenario.b1).
  - reflexivity.
  - intros tx i Htx Hi Hcb. simpl in Htx.
    apply list_elem_of_singleton in Htx as ->. simpl in Hi.
    apply list_elem_of_singleton in Hi as ->. split; [done|].
    simpl. by eexists.
Defined.

(** When the read of an input's output fails, CONNECT hands the store's
    error on, the primary batch stays committed and the events are sent. *)
Lemma connect_read_failure (rpc : string → result block)
    (read_fails : string → Z → bool) (fee_commit : option error) (s : store)
    (blockId : string) (b : block) :
  rpc blockId = Ok b →
  out_err (connect rpc read_fails None fee_commit s blockId (blk_height b))
    = Some KvFailure →
  fee_commit = Some KvFailure
  ∨ ∃ tx i, tx ∈ transactions b ∧ i ∈ ins tx ∧ coinbase i = false
            ∧ read_fails (prevTxId i) (in_vout i) = true.
Proof.
  intros Hrpc. unfold connect. rewrite Hrpc.
  rewrite decide_False by (intros H; by apply H).
  destruct (connect_log blockId (blk_height b) b) as [atomic events].
  cbn [write]. unfold connect2ndOrder.
  destruct (feeRates _ _ _) as [rates|e] eqn:Hrates;
    cbn [mbind result_bind write out_err out_store].
  - destruct fee_commit as [e|]; cbn [write out_err]; [|done].
    intros [= ->]. by left.
  - intros [= ->]. right.
    apply feeRates_err in Hrates
      as (tx & i & Htx & Hi & Hcb & [[Hread _]|(_ & _ & [=])]).
    by exists tx, i.
Qed.

Lemma feeRates_length (read_fails : string → Z → bool) (s : store)
    (txs : list transaction) (rates : list Z) :
  feeRates read_fails s txs = Ok rates → length rates = length txs.
Proof.
  revert rates. induction txs as [|tx l IH]; intros rates; csimpl.
  - by intros [= <-].
  - destruct (feeRate read_fails s tx); cbn [mbind result_bind]; [|done].
    destruct (feeRates read_fails s l) as [rs|]; cbn [mbind result_bind];
      [|done].
    intros [= <-]. simpl. by rewrite (IH rs).
Qed.

Lemma sorted_lookup_le (l : list Z) (i j : nat) (a b : Z) :
  Sorted Z.le l → (i ≤ j)%nat → l !! i = Some a → l !! j = Some b → a ≤ b.
Proof.
  intros Hs%Sorted_StronglySorted; [|intros x y z; lia].
  revert i j. induction Hs as [|x l Hs IH Hall]; intros i j Hij Hi Hj.
  - done.
  - destruct i as [|i], j as [|j]; simpl in *; try lia.
    + injection Hi as <-. injection Hj as <-. lia.
    + injection Hi as <-. rewrite Forall_forall in Hall.
      apply Hall. by eapply list_elem_of_lookup_2.
    + apply (IH i j); [lia|done|done].
Qed.

Lemma box_of_sorted (l : list Z) :
  Sorted Z.le l → Z.of_nat (length l) < 2 ^ 32 →
  ∃ a m c,
    box l = {| q1 := Some a; median := Some m; q3 := Some c |} ∧ a ≤ m ≤ c.
Proof.
  intros Hs Hlen. destruct (decide (l = [])) as [->|Hne].
  - exists 0, 0, 0. split; [done|lia].
  - rewrite box_nonempty by done.
    destruct (quartile_picks_in_range (length l)) as (Hq & Hm & Hmq).
    { destruct l; [done|simpl; lia]. }
    destruct (lookup_lt_is_Some_2 l _ Hq) as [a Ha].
    destruct (lookup_lt_is_Some_2 l _ Hm) as [m Hm'].
    destruct (lookup_lt_is_Some_2 l _ Hmq) as [c Hc].
    exists a, m, c. rewrite Ha, Hm', Hc. split; [done|]. split.
    + eapply (sorted_lookup_le l _ _ a m Hs); [|done|done].
      apply Nat.div_le_compat_l. lia.
    + eapply (sorted_lookup_le l _ _ m c Hs); [|done|done]. lia.
Qed.

Lemma connect_fee_row_rates (rpc : string → result block)
    (read_fails : string → Z → bool) (s : store)
    (blockId : string) (b : block) :
  rpc blockId = Ok b →
  out_err (connect rpc read_fails None None s blockId (blk_height b)) = None →
  ∃ rates,
    feeRates read_fails
      (apply_batch s (connect_log blockId (blk_height b) b).1)
      (transactions b) = Ok rates
    ∧ feeIndex (out_store (connect rpc read_fails None None s blockId (blk_height b)))
        !! blk_height b
      = Some {| fee_fees := box (sort_ascending rates);
                fee_size := blk_size b |}.
Proof.
  intros Hrpc. unfold connect. rewrite Hrpc.
  rewrite decide_False by (intros H; by apply H).
  destruct (connect_log blockId (blk_height b) b) as [atomic events].
  cbn [write fst]. unfold connect2ndOrder.
  destruct (feeRates _ _) as [rates|e]; cbn [mbind result_bind]; [|done].
  cbn [write out_store]. intros _.
  exists rates. split; [done|]. unfold apply_batch at 1.
  cbn [foldl apply_op feeIndex]. apply lookup_insert_eq.
Qed.

(** X13. The fee summary a successful CONNECT writes at the block's
    height is ordered, q1 ≤ median ≤ q3, and has the block's size (for a
    block of fewer than 2^32 transactions, as any array has). *)
Theorem connect_fee_summary_ordered (rpc : string → result block)
    (read_fails : string → Z → bool)
    (s : store) (blockId : string) (b : block) :
  rpc blockId = Ok b →
  Z.of_nat (length (transactions b)) < 2 ^ 32 →
  out_err (connect rpc read_fails None None s blockId (blk_height b)) = None →
  ∃ a m c,
    feeIndex (out_store (connect rpc read_fails None None s blockId (blk_height b)))
      !! blk_height b
    = Some {| fee_fees := {| q1 := Some a; median := Some m; q3 := Some c |};
              fee_size := blk_size b |}
    ∧ a ≤ m ≤ c.
Proof.
  intros Hrpc Hlen Hok.
  destruct (connect_fee_row_rates rpc read_fails s blockId b Hrpc Hok)
    as (rates & Hrates & ->).
  destruct (box_of_sorted (sort_ascending rates)) as (a & m & c & -> & Hle).
  - apply sort_ascending_sorted.
  - rewrite (Permutation_length (sort_ascending_perm rates)).
    by rewrite (feeRates_length _ _ _ _ Hrates).
  - by exists a, m, c.
Qed.

Lemma connect_fee_summary_ordered_witness :
  ∃ a m c,
    feeIndex (out_store (connect Scenario.rpc reads_ok None None Scenario.s0 "b1" 1))
      !! 1
    = Some {| fee_fees := {| q1 := Some a; median := Some m; q3 := Some c |};
              fee_size := 300 |}
    ∧ a ≤ m ≤ c.
Proof.
  apply (connect_fee_summary_ordered Scenario.rpc reads_ok Scenario.s0 "b1"
           Scenario.b1).
  - reflexivity.
  - simpl. lia.
  - reflexivity.
Defined.

Lemma feeRates_coinbase (read_fails : string → Z → bool) (s : store)
    (txs : list transaction) :
  Forall (λ tx, existsb coinbase (ins tx) = true) txs →
  feeRates read_fails s txs = Ok (replicate (length txs) 0).
Proof.
  induction 1 as [|tx l Hcb _ IH]; csimpl; [done|].
  unfold feeRate. rewrite Hcb, IH. done.
Qed.

Lemma box_all_zero (l : list Z) :
  Forall (λ x, x = 0) l → Z.of_nat (length l) < 2 ^ 32 →
  box l = {| q1 := Some 0; median := Some 0; q3 := Some 0 |}.
Proof.
  intros Hzero Hlen. destruct (decide (l = [])) as [->|Hne]; [done|].
  rewrite box_nonempty by done.
  destruct (quartile_picks_in_range (length l)) as (Hq & Hm & Hmq).
  { destruct l; [done|simpl; lia]. }
  rewrite Forall_forall in Hzero.
  destruct (lookup_lt_is_Some_2 l _ Hq) as [a Ha].
  destruct (lookup_lt_is_Some_2 l _ Hm) as [m Hm'].
  destruct (lookup_lt_is_Some_2 l _ Hmq) as [c Hc].
  rewrite Ha, Hm', Hc.
  rewrite (Hzero a), (Hzero m), (Hzero c);
    [done|by eapply list_elem_of_lookup_2..].
Qed.

(** X14. For a block in which every transaction has a coinbase input,
    the fee pass reads no output and cannot miss one: with both commits
    succeeding CONNECT succeeds on any store and writes the fee summary
    (0, 0, 0) with the block's size at the block's height. *)
Theorem connect_coinbase_only (rpc : string → result block)
    (read_fails : string → Z → bool) (s : store)
    (blockId : string) (b : block) :
  rpc blockId = Ok b →
  Z.of_nat (length (transactions b)) < 2 ^ 32 →
  Forall (λ tx, existsb coinbase (ins tx) = true) (transactions b) →
  out_err (connect rpc read_fails None None s blockId (blk_height b)) = None
  ∧ feeIndex (out_store (connect rpc read_fails None None s blockId (blk_height b)))
      !! blk_height b
    = Some {| fee_fees := {| q1 := Some 0; median := Some 0; q3 := Some 0 |};
              fee_size := blk_size b |}.
Proof.
  intros Hrpc Hlen Hcb.
  assert (out_err (connect rpc read_fails None None s blockId (blk_height b)) = None)
    as Hok.
  { unfold connect. rewrite Hrpc.
    rewrite decide_False by (intros H; by apply H).
    destruct (connect_log blockId (blk_height b) b) as [atomic events].
    cbn [write]. unfold connect2ndOrder.
    by rewrite (feeRates_coinbase _ _ _ Hcb). }
  split; [done|].
  destruct (connect_fee_row_rates rpc read_fails s blockId b Hrpc Hok)
    as (rates & Hrates & ->).
  rewrite (feeRates_coinbase _ _ _ Hcb) in Hrates. injection Hrates as <-.
  rewrite box_all_zero; [done| |].
  - rewrite (sort_ascending_perm _). apply Forall_replicate. done.
  - rewrite (Permutation_length (sort_ascending_perm _)).
    by rewrite length_replicate.
Qed.

Lemma connect_coinbase_only_witness :
  out_err (connect Scenario.rpc reads_ok None None empty_store "b0" 0) = None
  ∧ feeIndex (out_store (connect Scenario.rpc reads_ok None None empty_store "b0" 0))
      !! 0
    = Some {| fee_fees := {| q1 := Some 0; median := Some 0; q3 := Some 0 |};
              fee_size := 200 |}.
Proof.
  apply (connect_coinbase_only Scenario.rpc reads_ok empty_store "b0" Scenario.b0).
  - reflexivity.
  - simpl. lia.
  - repeat constructor.
Defined.

(** ** Further properties of DISCONNECT *)

(** The entries of the batch of DISCONNECT, one by one. *)
Lemma elem_of_disconnect_batch (o : op) (b : block) :
  o ∈ disconnect_batch b ↔
    (∃ tx i, tx ∈ transactions b ∧ i ∈ ins tx ∧ coinbase i = false
       ∧ o = DelSpent (prevTxId i, in_vout i))
    ∨ (∃ tx vout out, tx ∈ transactions b ∧ outs tx !! vout = Some out
         ∧ (o = DelSc (out_scId out, blk_height b, txId tx, Z.of_nat vout)
            ∨ o = DelTxo (txId tx, Z.of_nat vout)))
    ∨ (∃ tx, tx ∈ transactions b ∧ o = DelTx (txId tx))
    ∨ o = PutTip {| tip_blockId := previousblockhash b;
                    tip_height := blk_height b |}.
Proof.
  unfold disconnect_batch.
  rewrite elem_of_app, elem_of_concat, list_elem_of_singleton.
  setoid_rewrite list_elem_of_fmap.
  split.
  - intros [(l & (tx & -> & Htx) & Ho)|Ho]; [|by do 3 right].
    unfold disconnect_tx in Ho.
    rewrite !elem_of_app, !elem_of_concat, list_elem_of_singleton in Ho.
    destruct Ho as [(l & Hl & Ho)|[(l & Hl & Ho)|Ho]].
    + apply list_elem_of_fmap in Hl as (i & -> & Hi).
      destruct (coinbase i) eqn:Hcb; [by apply elem_of_nil in Ho|].
      apply list_elem_of_singleton in Ho as ->. left. by exists tx, i.
    + apply elem_of_lookup_imap in Hl as (vout & out & -> & Hout).
      right; left. exists tx, vout, out. split_and!; [done|done|].
      apply elem_of_cons in Ho as [->|Ho]; [by left|].
      apply list_elem_of_singleton in Ho as ->. by right.
    + right; right; left. by exists tx.
  - intros [(tx & i & Htx & Hi & Hcb & ->)
           |[(tx & vout & out & Htx & Hout & Ho)
            |[(tx & Htx & ->)| ->]]]; [left|left|left|by right];
      (eexists; split; [by exists tx|]); unfold disconnect_tx;
      rewrite !elem_of_app, !elem_of_concat, list_elem_of_singleton.
    + left. eexists. split.
      * apply list_elem_of_fmap. by exists i.
      * rewrite Hcb. by apply list_elem_of_singleton.
    + right; left. eexists. split.
      * by apply (elem_of_lookup_imap_2 _ _ out vout).
      * destruct Ho as [-> | ->]; [by left|right; by left].
    + by do 2 right.
Qed.

Lemma disconnect_read_deleted (rpc : string → result block) (s : store)
    (blockId : string) (b : block) (o : op) :
  rpc blockId = Ok b →
  o ∈ disconnect_batch b →
  is_del o = true →
  read (out_store (disconnect rpc None s blockId)) (key_of o) = None.
Proof.
  intros Hrpc Ho Hdel. rewrite (disconnect_store rpc s blockId b Hrpc).
  apply read_apply_batch_deleted.
  - eapply Forall_impl; [apply disconnect_batch_dels|].
    intros o' [?|Htip]; [by left|right].
    rewrite Htip. by destruct o.
  - by apply list_elem_of_fmap_2.
Qed.

(** X15. A committed DISCONNECT removes the block's rows from any store:
    the TxIndex row of every transaction, the spend record of every
    outpoint a non-coinbase input consumes, and, for every output, the
    TxoIndex and ScriptIndex rows keyed by its position in [outs]. *)
Theorem disconnect_removes_rows (rpc : string → result block) (s : store)
    (blockId : string) (b : block) :
  rpc blockId = Ok b →
  let s' := out_store (disconnect rpc None s blockId) in
  (∀ tx, tx ∈ transactions b →
     blockHeightByTransactionId s' (txId tx) = None)
  ∧ (∀ tx i, tx ∈ transactions b → i ∈ ins tx → coinbase i = false →
       spentFromTxo s' (prevTxId i) (in_vout i) = None)
  ∧ (∀ tx vout out, tx ∈ transactions b → outs tx !! vout = Some out →
       txoByTxo s' (txId tx) (Z.of_nat vout) = None
       ∧ scIndex s' !! (out_scId out, blk_height b, txId tx, Z.of_nat vout)
         = None).
Proof.
  intros Hrpc s'. split_and!.
  - intros tx Htx.
    pose proof (disconnect_read_deleted rpc s blockId b (DelTx (txId tx)) Hrpc)
      as Hread.
    simpl in Hread. unfold blockHeightByTransactionId. fold s' in Hread.
    destruct (txIndex s' !! txId tx); [|done].
    discriminate Hread; [|done].
    apply elem_of_disconnect_batch. right; right; left. eauto.
  - intros tx i Htx Hi Hcb.
    pose proof (disconnect_read_deleted rpc s blockId b
                  (DelSpent (prevTxId i, in_vout i)) Hrpc) as Hread.
    simpl in Hread. unfold spentFromTxo. fold s' in Hread.
    destruct (spentIndex s' !! _); [|done].
    discriminate Hread; [|done].
    apply elem_of_disconnect_batch. left. by exists tx, i.
  - intros tx vout out Htx Hout. split.
    + pose proof (disconnect_read_deleted rpc s blockId b
                    (DelTxo (txId tx, Z.of_nat vout)) Hrpc) as Hread.
      simpl in Hread. unfold txoByTxo. fold s' in Hread.
      destruct (txoIndex s' !! _); [|done].
      discriminate Hread; [|done].
      apply elem_of_disconnect_batch. right; left.
      exists tx, vout, out. split_and!; [done|done|by right].
    + pose proof (disconnect_read_deleted rpc s blockId b
                    (DelSc (out_scId out, blk_height b, txId tx,
                            Z.of_nat vout)) Hrpc) as Hread.
      simpl in Hread. fold s' in Hread.
      destruct (scIndex s' !! _); [|done].
      discriminate Hread; [|done].
      apply elem_of_disconnect_batch. right; left.
      exists tx, vout, out. split_and!; [done|done|by left].
Qed.

Lemma disconnect_removes_rows_witness :
  blockHeightByTransactionId
    (out_store (disconnect Scenario.rpc None Scenario.s1 "b1")) "tx1" = None.
Proof.
  destruct (disconnect_removes_rows Scenario.rpc Scenario.s1 "b1" Scenario.b1)
    as (Htx & _); [reflexivity|].
  apply (Htx Scenario.tx1). simpl. by left.
Defined.

(** X16. DISCONNECT never touches FeeIndex and never emits an event,
    whatever the RPC answers and however the commit ends; when the RPC or
    the commit fails, the store is left exactly as it was and the error is
    handed to the callback. *)
Theorem disconnect_fees_events_failure (rpc : string → result block)
    (commit : option error) (s : store) (blockId : string) :
  feeIndex (out_store (disconnect rpc commit s blockId)) = feeIndex s
  ∧ out_emitted (disconnect rpc commit s blockId) = []
  ∧ (∀ e, rpc blockId = Err e →
       disconnect rpc commit s blockId = Outcome s (Some e) None [])
  ∧ (∀ e b, rpc blockId = Ok b → commit = Some e →
       disconnect rpc commit s blockId = Outcome s (Some e) None []).
Proof.
  unfold disconnect. split_and!.
  - destruct (rpc blockId) as [b|e]; [|done].
    destruct commit; [done|]. apply disconnect_keeps_fees.
  - destruct (rpc blockId) as [b|e]; [|done]. by destruct commit.
  - by intros e ->.
  - by intros e b -> ->.
Qed.

(** X17. A committed DISCONNECT leaves the rows of other transactions
    alone: TxIndex, TxoIndex and ScriptIndex rows whose txId is not a
    txId of the block, and the spend record of every outpoint that no
    non-coinbase input of the block consumes, are what they were. *)
Theorem disconnect_leaves_other_rows (rpc : string → result block)
    (s : store) (blockId : string) (b : block) :
  rpc blockId = Ok b →
  let s' := out_store (disconnect rpc None s blockId) in
  (∀ t, t ∉ txId <$> transactions b → txIndex s' !! t = txIndex s !! t)
  ∧ (∀ t v, t ∉ txId <$> transactions b →
       txoIndex s' !! (t, v) = txoIndex s !! (t, v))
  ∧ (∀ sc h t v, t ∉ txId <$> transactions b →
       scIndex s' !! (sc, h, t, v) = scIndex s !! (sc, h, t, v))
  ∧ (∀ p v,
       (∀ tx i, tx ∈ transactions b → i ∈ ins tx → coinbase i = false →
                (prevTxId i, in_vout i) ≠ (p, v)) →
       spentIndex s' !! (p, v) = spentIndex s !! (p, v)).
Proof.
  intros Hrpc s'.
  assert (∀ k, (∀ o, o ∈ disconnect_batch b → key_of o ≠ k) →
            read s' k = read s k) as Hread.
  { intros k Hk. unfold s'. rewrite (disconnect_store rpc s blockId b Hrpc).
    apply read_apply_batch_untouched.
    intros (o & -> & Ho)%list_elem_of_fmap. by apply (Hk o). }
  split_and!.
  - intros t Ht. specialize (Hread (KTx t)). simpl in Hread.
    assert (CTx <$> txIndex s' !! t = CTx <$> txIndex s !! t) as Heq.
    { apply Hread. intros o Ho Hkey. apply elem_of_disconnect_batch in Ho
        as [(? & ? & _ & _ & _ & ->)
           |[(? & ? & ? & _ & _ & [-> | ->])|[(tx & Htx & ->)| ->]]];
        try done.
      injection Hkey as <-. apply Ht. by apply list_elem_of_fmap_2. }
    destruct (txIndex s' !! t), (txIndex s !! t); simpl in *; congruence.
  - intros t v Ht. specialize (Hread (KTxo (t, v))). simpl in Hread.
    assert (CTxo <$> txoIndex s' !! (t, v) = CTxo <$> txoIndex s !! (t, v))
      as Heq.
    { apply Hread. intros o Ho Hkey. apply elem_of_disconnect_batch in Ho
        as [(? & ? & _ & _ & _ & ->)
           |[(tx & ? & ? & Htx & _ & [-> | ->])|[(? & _ & ->)| ->]]];
        try done.
      injection Hkey as <- _. apply Ht. by apply list_elem_of_fmap_2. }
    destruct (txoIndex s' !! _), (txoIndex s !! _); simpl in *; congruence.
  - intros sc h t v Ht. specialize (Hread (KSc (sc, h, t, v))).
    simpl in Hread.
    assert ((λ _, CSc) <$> scIndex s' !! (sc, h, t, v)
            = (λ _, CSc) <$> scIndex s !! (sc, h, t, v)) as Heq.
    { apply Hread. intros o Ho Hkey. apply elem_of_disconnect_batch in Ho
        as [(? & ? & _ & _ & _ & ->)
           |[(tx & ? & ? & Htx & _ & [-> | ->])|[(? & _ & ->)| ->]]];
        try done.
      injection Hkey as _ _ <- _. apply Ht. by apply list_elem_of_fmap_2. }
    destruct (scIndex s' !! _) as [[]|], (scIndex s !! _) as [[]|];
      simpl in *; congruence.
  - intros p v Hpv. specialize (Hread (KSpent (p, v))). simpl in Hread.
    assert (CSpent <$> spentIndex s' !! (p, v)
            = CSpent <$> spentIndex s !! (p, v)) as Heq.
    { apply Hread. intros o Ho Hkey. apply elem_of_disconnect_batch in Ho
        as [(tx & i & Htx & Hi & Hcb & ->)
           |[(? & ? & ? & _ & _ & [-> | ->])|[(? & _ & ->)| ->]]];
        try done.
      injection Hkey as Hp Hv. apply (Hpv tx i); try done. congruence. }
    destruct (spentIndex s' !! _), (spentIndex s !! _); simpl in *;
      congruence.
Qed.

Lemma disconnect_leaves_other_rows_witness :
  txIndex (out_store (disconnect Scenario.rpc None Scenario.s1 "b1")) !! "tx0"
  = txIndex Scenario.s1 !! "tx0".
Proof.
  destruct (disconnect_leaves_other_rows Scenario.rpc Scenario.s1 "b1"
              Scenario.b1) as (Htx & _); [reflexivity|].
  apply Htx. simpl. intros Hin.
  apply list_elem_of_singleton in Hin. discriminate Hin.
Defined.

(** ** The script scans *)

Lemma sort_insert_by_perm {A} (leb : A → A → bool) (x : A) (l : list A) :
  sort_insert leb x l ≡ₚ x :: l.
Proof.
  induction l as [|y l IH]; simpl; [done|].
  destruct (leb x y); [done|]. rewrite IH. apply Permutation_swap.
Qed.

Lemma sort_by_perm {A} (leb : A → A → bool) (l : list A) :
  sort_by leb l ≡ₚ l.
Proof.
  unfold sort_by. induction l as [|x l IH]; simpl; [done|].
  by rewrite sort_insert_by_perm, IH.
Qed.

Lemma string_compare_refl (x : string) : String.compare x x = Eq.
Proof.
  pose proof (String.compare_antisym x x) as H.
  destruct (String.compare x x); simpl in H; congruence.
Qed.

(** A key between the bounds of a scan belongs to the script and lies in
    the height window. *)
Lemma sc_range_inv (scId : string) (height : Z) (k : sc_key) :
  sc_key_leb (scId, height, ZERO64, 0) k = true →
  sc_key_ltb k (scId, 4294967295, ZERO64, 0) = true →
  k.1.1.1 = scId ∧ height ≤ k.1.1.2 ≤ 4294967295.
Proof.
  destruct k as [[[sk h] t] v]. cbn [fst snd].
  unfold sc_key_leb, sc_key_ltb, sc_key_compare. intros Hge Hlt.
  rewrite (String.compare_antisym sk scId) in Hlt.
  destruct (String.compare scId sk) eqn:Hsc; cbn [CompOpp] in Hlt;
    try discriminate.
  apply String.compare_eq_iff in Hsc as <-.
  destruct (Z.compare_spec height h); try discriminate;
    destruct (Z.compare_spec h 4294967295); try discriminate;
    (split; [done|lia]).
Qed.

Lemma elem_of_sc_iterator (s : store) (gte lt : sc_key) (limit : Z)
    (k : sc_key) :
  k ∈ sc_iterator s gte lt limit →
  scIndex s !! k = Some ()
  ∧ sc_key_leb gte k = true ∧ sc_key_ltb k lt = true.
Proof.
  unfold sc_iterator. intros (i & Hi & _)%elem_of_take.
  apply list_elem_of_lookup_2, list_elem_of_filter in Hi as [[Hge Hlt] Hk].
  rewrite sort_by_perm in Hk.
  apply list_elem_of_fmap in Hk as ([k' []] & -> & Hk).
  by apply elem_of_map_to_list in Hk.
Qed.

Lemma elem_of_walked (s : store) (scId : string) (height limit : Z)
    (k : sc_key) :
  k ∈ walked s scId height limit →
  scIndex s !! k = Some () ∧ k.1.1.1 = scId
  ∧ height ≤ k.1.1.2 ≤ 4294967295.
Proof.
  intros (Hk & Hge & Hlt)%elem_of_sc_iterator.
  split; [done|]. by apply sc_range_inv.
Qed.

Lemma length_walked (s : store) (scId : string) (height limit : Z) :
  (length (walked s scId height limit) ≤ Z.to_nat limit)%nat.
Proof. unfold walked, sc_iterator. rewrite length_take. lia. Qed.

Lemma elem_of_drop_1 {A} (x : A) (n : nat) (l : list A) :
  x ∈ drop n l → x ∈ l.
Proof.
  intros [i Hi]%list_elem_of_lookup_1. rewrite lookup_drop in Hi.
  by eapply list_elem_of_lookup_2.
Qed.

(** The answer of a call in terms of the entries it walks. *)
Lemma txosList_walk (s : store) (scId : string) (height : Z)
    (limit : limit_arg) :
  ∃ lim offset,
    (__txosListByScriptId s scId height limit).1
      = txo_of_key scId
          <$> drop (Z.to_nat (offset - 1)) (walked s scId height lim)
    ∧ (__txosListByScriptId s scId height limit).2
      = {| pos_height := height;
           pos_offset := Z.of_nat (length (walked s scId height lim)) |}.
Proof.
  unfold __txosListByScriptId. cbn [fst snd].
  eexists _, _. rewrite walk_results, walk_count. cbn [results count].
  rewrite Z.sub_0_r, Z.add_0_l. split; reflexivity.
Qed.

(** X18. Every txo that [__txosListByScriptId] answers with is a row of
    ScriptIndex for the script asked for, at a height from the [height]
    argument up to 0xffffffff. *)
Theorem txosList_sound (s : store) (scId : string) (height : Z)
    (limit : limit_arg) (txo : txo_ref) :
  txo ∈ (__txosListByScriptId s scId height limit).1 →
  ref_scId txo = scId
  ∧ scIndex s !! (scId, ref_height txo, ref_txId txo, ref_vout txo) = Some ()
  ∧ height ≤ ref_height txo ≤ 4294967295.
Proof.
  destruct (txosList_walk s scId height limit) as (lim & offset & -> & _).
  intros (k & -> & Hk)%list_elem_of_fmap.
  apply elem_of_drop_1, elem_of_walked in Hk as (Hrow & Hsc & Hh).
  destruct k as [[[sk h] t] v]. simpl in *. by subst sk.
Qed.

Lemma txosList_sound_witness :
  ref_scId (TxoRef "tb" 0 "S" 20) = "S"
  ∧ scIndex Scenario.s_scan !! ("S", 20, "tb", 0) = Some ()
  ∧ 0 ≤ 20 ≤ 4294967295.
Proof.
  apply (txosList_sound Scenario.s_scan "S" 0 (LimitPair 2 5)
           (TxoRef "tb" 0 "S" 20)).
  vm_compute. by left.
Defined.

(** X19. With a positive number as limit, [__txosListByScriptId] answers
    with at most that many txos, and the offset of the position is the
    number of txos in the answer. *)
Theorem txosList_scalar_bound (s : store) (scId : string) (height n : Z) :
  0 < n →
  Z.of_nat (length (__txosListByScriptId s scId height (LimitNumber n)).1) ≤ n
  ∧ (__txosListByScriptId s scId height (LimitNumber n)).2
    = {| pos_height := height;
         pos_offset :=
           Z.of_nat
             (length (__txosListByScriptId s scId height (LimitNumber n)).1)
      |}.
Proof.
  intros Hn. unfold __txosListByScriptId, or_default. cbn [fst snd].
  rewrite decide_False by lia.
  rewrite walk_results, walk_count. cbn [results count].
  change (Z.to_nat (0 - 1 - 0)) with 0%nat. rewrite drop_0, app_nil_l.
  rewrite length_fmap, Z.add_0_l. split; [|done].
  pose proof (length_walked s scId height n) as Hlen. unfold walked in Hlen.
  lia.
Qed.

Lemma txosList_scalar_bound_witness :
  Z.of_nat
    (length (__txosListByScriptId Scenario.s_scan "S" 0 (LimitNumber 2)).1)
  ≤ 2.
Proof.
  apply (txosList_scalar_bound Scenario.s_scan "S" 0 2). lia.
Defined.

(** X20. An [offset, end] pair whose offset is 0 or 1 drops nothing: the
    call answers as with the number [end - offset] as limit. *)
Theorem txosList_pair_small_offset (s : store) (scId : string)
    (height offset end_ : Z) :
  offset ≤ 1 →
  (__txosListByScriptId s scId height (LimitPair offset end_)).1
  = (__txosListByScriptId s scId height (LimitNumber (end_ - offset))).1
  ∧ pos_offset (__txosListByScriptId s scId height (LimitPair offset end_)).2
    = pos_offset
        (__txosListByScriptId s scId height (LimitNumber (end_ - offset))).2.
Proof.
  intros Hoff. unfold __txosListByScriptId. cbn [fst snd].
  rewrite !walk_results, !walk_count. cbn [results count].
  replace (Z.to_nat (offset - 1 - 0)) with 0%nat by lia.
  by replace (Z.to_nat (0 - 1 - 0)) with 0%nat by lia.
Qed.

Lemma txosList_pair_small_offset_witness :
  (__txosListByScriptId Scenario.s_scan "S" 0 (LimitPair 1 4)).1
  = (__txosListByScriptId Scenario.s_scan "S" 0 (LimitNumber 3)).1.
Proof.
  apply (txosList_pair_small_offset Scenario.s_scan "S" 0 1 4). lia.
Defined.

Lemma elem_of_spent_fold (l : list (option spent_row)) (S : gset string)
    (t : string) :
  t ∈ foldl (λ (set : gset string) spent,
               match spent with
               | None => set
               | Some sp => {[spent_txId sp]} ∪ set
               end) S l
  ↔ t ∈ S ∨ ∃ sp, Some sp ∈ l ∧ spent_txId sp = t.
Proof.
  revert S. induction l as [|[sp|] l IH]; intros S; csimpl.
  - split; [by left|]. by intros [?|(? & ?%elem_of_nil & _)].
  - rewrite IH, elem_of_union, elem_of_singleton. split.
    + intros [[->|?]|(sp' & ? & ?)]; [right|by left|right].
      * exists sp. split; [by left|done].
      * exists sp'. split; [by right|done].
    + intros [?|(sp' & [[= ->]|?]%elem_of_cons & <-)];
        [by left; right|by left; left|right; eauto].
  - rewrite IH. split.
    + intros [?|(sp' & ? & ?)]; [by left|right].
      exists sp'. split; [by right|done].
    + intros [?|(sp' & [?|?]%elem_of_cons & <-)]; [by left|done|right; eauto].
Qed.

Lemma elem_of_txid_fold (l : list txo_ref) (S : gset string) (t : string) :
  t ∈ foldl (λ (set : gset string) txo, {[ref_txId txo]} ∪ set) S l
  ↔ t ∈ S ∨ ∃ txo, txo ∈ l ∧ ref_txId txo = t.
Proof.
  revert S. induction l as [|x l IH]; intros S; csimpl.
  - split; [by left|]. by intros [?|(? & ?%elem_of_nil & _)].
  - rewrite IH, elem_of_union, elem_of_singleton. split.
    + intros [[->|?]|(x' & ? & ?)]; [right|by left|right].
      * exists x. split; [by left|done].
      * exists x'. split; [by right|done].
    + intros [?|(x' & [->|?]%elem_of_cons & <-)];
        [by left; right|by left; left|right; eauto].
Qed.

(** X21. The set [transactionIdsByScriptId] answers with holds exactly
    the txIds of the txos that [__txosListByScriptId] answers with and
    the txIds of the transactions that SpentIndex records as spending one
    of them; the position is passed on unchanged. *)
Theorem transactionIds_are_producers_and_spenders (s : store)
    (scId : string) (height : Z) (limit : limit_arg) :
  let txos := (__txosListByScriptId s scId height limit).1 in
  (∀ t, t ∈ (transactionIdsByScriptId s scId height limit).1 ↔
     (∃ txo, txo ∈ txos ∧ ref_txId txo = t)
     ∨ (∃ txo sp, txo ∈ txos
          ∧ spentFromTxo s (ref_txId txo) (ref_vout txo) = Some sp
          ∧ spent_txId sp = t))
  ∧ (transactionIdsByScriptId s scId height limit).2
    = (__txosListByScriptId s scId height limit).2.
Proof.
  unfold transactionIdsByScriptId.
  destruct (__txosListByScriptId s scId height limit) as [txos pos].
  cbn [fst snd]. split; [|done]. intros t.
  rewrite elem_of_txid_fold, elem_of_spent_fold.
  split.
  - intros [[?%elem_of_empty|(sp & Hsp & <-)]|?]; [done| |by left].
    apply list_elem_of_fmap in Hsp as (txo & Hsp & Htxo).
    right. by exists txo, sp.
  - intros [?|(txo & sp & Htxo & Hsp & <-)]; [by right|].
    left; right. exists sp. split; [|done].
    apply list_elem_of_fmap. by exists txo.
Qed.

(** X22. Every entry of the map [txosByScriptId] answers with sits under
    its own `txId:vout` string and is a row of ScriptIndex for the script
    asked for, at a height from the [height] argument up to 0xffffffff. *)
Theorem txosByScriptId_sound (s : store) (scId : string) (height : Z)
    (limit : option Z) (key : string) (v : txo_ref) :
  txosByScriptId s scId height limit !! key = Some v →
  key = outpoint_string (ref_txId v) (ref_vout v)
  ∧ ref_scId v = scId
  ∧ scIndex s !! (scId, ref_height v, ref_txId v, ref_vout v) = Some ()
  ∧ height ≤ ref_height v ≤ 4294967295.
Proof.
  unfold txosByScriptId.
  intros [Hm|(k & Hk & -> & ->)]%resultMap_fold_inv; [done|].
  apply elem_of_walked in Hk as (Hrow & Hsc & Hh).
  destruct k as [[[sk h] t] vo]. simpl in *. by subst sk.
Qed.

Lemma txosByScriptId_sound_witness :
  "tb:0" = outpoint_string "tb" 0
  ∧ ref_scId (TxoRef "tb" 0 "S" 20) = "S"
  ∧ scIndex Scenario.s_scan !! ("S", 20, "tb", 0) = Some ()
  ∧ 0 ≤ 20 ≤ 4294967295.
Proof.
  apply (txosByScriptId_sound Scenario.s_scan "S" 0 None "tb:0"
           (TxoRef "tb" 0 "S" 20)).
  vm_compute. reflexivity.
Defined.

(** X23. With the same number as limit (or none), [txosByScriptId] has
    an entry under `txId:vout` for every txo that
    [__txosListByScriptId] answers with. *)
Theorem txosByScriptId_covers_list (s : store) (scId : string) (height : Z)
    (limit : option Z) (txo : txo_ref) :
  txo ∈ (__txosListByScriptId s scId height
           (match limit with
            | None => LimitOmitted
            | Some n => LimitNumber n
            end)).1 →
  is_Some (txosByScriptId s scId height limit
             !! outpoint_string (ref_txId txo) (ref_vout txo)).
Proof.
  unfold __txosListByScriptId, txosByScriptId. cbn [fst].
  rewrite walk_results. cbn [results count app].
  intros (k & -> & Hk)%list_elem_of_fmap. apply elem_of_drop_1 in Hk.
  assert (or_default
            match match limit with
                  | Some n => LimitNumber n
                  | None => LimitOmitted
                  end with
            | LimitOmitted => None
            | LimitNumber n => Some n
            | LimitPair o e => Some (e - o)
            end 10000 = or_default limit 10000) as Hlim
    by by destruct limit.
  rewrite Hlim in Hk.
  pose proof (resultMap_fold_covers scId _ ∅ k Hk) as Hcov.
  by destruct k as [[[sk h] t] vo].
Qed.

Lemma txosByScriptId_covers_list_witness :
  is_Some (txosByScriptId Scenario.s_scan "S" 0 (Some 3)
             !! outpoint_string "tb" 0).
Proof.
  apply (txosByScriptId_covers_list Scenario.s_scan "S" 0 (Some 3)
           (TxoRef "tb" 0 "S" 20)).
  vm_compute. right. by left.
Defined.

Lemma elem_of_sc_iterator_2 (s : store) (gte lt : sc_key) (k : sc_key) :
  scIndex s !! k = Some () →
  sc_key_leb gte k = true → sc_key_ltb k lt = true →
  sc_iterator s gte lt 1 ≠ [].
Proof.
  intros Hrow Hge Hlt. unfold sc_iterator.
  assert (k ∈ filter (λ k, sc_key_leb gte k = true ∧ sc_key_ltb k lt = true)
                (sort_by sc_key_leb (fst <$> map_to_list (scIndex s))))
    as Hin.
  { apply list_elem_of_filter. split; [done|]. rewrite sort_by_perm.
    apply list_elem_of_fmap. exists (k, ()). split; [done|].
    by apply elem_of_map_to_list. }
  destruct (filter _ _) as [|x l]; [by apply elem_of_nil in Hin|done].
Qed.

Lemma seen_of_row (s : store) (scId : string) (h : Z) (t : string) (v : Z) :
  scIndex s !! (scId, h, t, v) = Some () →
  0 < h < 4294967295 →
  seenScriptId s scId = true.
Proof.
  intros Hrow Hh. unfold seenScriptId.
  pose proof (elem_of_sc_iterator_2 s (scId, 0, ZERO64, 0)
                (scId, 4294967295, ZERO64, 0) (scId, h, t, v) Hrow) as Hne.
  destruct (sc_iterator _ _ _ 1) as [|x l] eqn:Hit.
  - exfalso. apply Hne; [| |done].
    + unfold sc_key_leb, sc_key_compare. rewrite string_compare_refl.
      by destruct (Z.compare_spec 0 h); [lia| |lia].
    + unfold sc_key_ltb, sc_key_compare. rewrite string_compare_refl.
      by destruct (Z.compare_spec h 4294967295); [lia| |lia].
  - assert (l = []) as ->.
    { assert (length (x :: l) ≤ 1)%nat as Hlen.
      { rewrite <- Hit. unfold sc_iterator. rewrite length_take.
        change (Z.to_nat 1) with 1%nat. lia. }
      destruct l; [done|simpl in Hlen; lia]. }
    done.
Qed.

(** X24. [seenScriptId] answers true only when ScriptIndex has a row of
    the script, and it does answer true when the script has a row at a
    height strictly between 0 and 0xffffffff. *)
Theorem seenScriptId_rows (s : store) (scId : string) :
  (seenScriptId s scId = true →
     ∃ h t v, scIndex s !! (scId, h, t, v) = Some () ∧ 0 ≤ h ≤ 4294967295)
  ∧ (∀ h t v, scIndex s !! (scId, h, t, v) = Some () →
       0 < h < 4294967295 → seenScriptId s scId = true).
Proof.
  split; [|apply seen_of_row].
  unfold seenScriptId.
  destruct (sc_iterator _ _ _ 1) as [|k l] eqn:Hit; [done|]. intros _.
  assert (k ∈ walked s scId 0 1) as Hk.
  { unfold walked. rewrite Hit. by left. }
  apply elem_of_walked in Hk as (Hrow & Hsc & Hh).
  destruct k as [[[sk h] t] v]. simpl in *. subst sk. by exists h, t, v.
Qed.

(** X25. After a committed CONNECT at a height strictly between 0 and
    0xffffffff, [seenScriptId] answers true for the script of every output
    of the block. *)
Theorem connect_makes_script_seen (rpc : string → result block)
    (read_fails : string → Z → bool)
    (fee_commit : option error) (s : store) (blockId : string) (b : block)
    (tx : transaction) (out : output) :
  rpc blockId = Ok b →
  0 < blk_height b < 4294967295 →
  tx ∈ transactions b →
  out ∈ outs tx →
  seenScriptId
    (out_store (connect rpc read_fails None fee_commit s blockId (blk_height b)))
    (out_scId out)
  = true.
Proof.
  intros Hrpc Hh Htx Hout.
  eapply seen_of_row; [|done].
  by apply (connect_puts_sc_row rpc read_fails fee_commit s blockId b tx out).
Qed.

Lemma connect_makes_script_seen_witness :
  seenScriptId (out_store (connect Scenario.rpc reads_ok None None Scenario.s0 "b1" 1))
    "s2"
  = true.
Proof.
  apply (connect_makes_script_seen Scenario.rpc reads_ok None Scenario.s0 "b1"
           Scenario.b1 Scenario.tx1 (Output "s2" "script1" 4999990000 0)).
  - reflexivity.
  - simpl. lia.
  - simpl. by left.
  - simpl. by left.
Defined.

(** ** The fee window *)

Section sort_by_sorted.
Context {A : Type} (leb : A → A → bool).
Hypothesis leb_total : ∀ x y, leb x y = true ∨ leb y x = true.
Hypothesis leb_trans :
  ∀ x y z, leb x y = true → leb y z = true → leb x z = true.

Lemma sort_insert_by_sorted (x : A) (l : list A) :
  Sorted (λ a b, leb a b = true) l →
  Sorted (λ a b, leb a b = true) (sort_insert leb x l).
Proof.
  induction 1 as [|y l Hs IH Hhd]; simpl.
  - repeat constructor.
  - destruct (leb x y) eqn:Hxy.
    + constructor; [by constructor|by constructor].
    + constructor; [done|].
      assert (leb y x = true) as Hyx by (destruct (leb_total x y); congruence).
      destruct Hhd as [|z l Hyz]; simpl; [by constructor|].
      destruct (leb x z); by constructor.
Qed.

Lemma sort_by_sorted (l : list A) :
  StronglySorted (λ a b, leb a b = true) (sort_by leb l).
Proof.
  apply Sorted_StronglySorted.
  { intros x y z. apply leb_trans. }
  unfold sort_by. induction l as [|x l IH]; simpl; [constructor|].
  by apply sort_insert_by_sorted.
Qed.

End sort_by_sorted.

Lemma StronglySorted_sublist {A} (R : relation A) (l1 l2 : list A) :
  l1 `sublist_of` l2 → StronglySorted R l2 → StronglySorted R l1.
Proof.
  induction 1 as [|x l1 l2 Hsub IH|x l1 l2 Hsub IH]; intros Hs.
  - constructor.
  - apply StronglySorted_inv in Hs as [Hs Hall]. constructor; [by apply IH|].
    rewrite Forall_forall in Hall. apply Forall_forall. intros y Hy.
    apply Hall. by eapply elem_of_sublist.
  - apply StronglySorted_inv in Hs as [Hs _]. by apply IH.
Qed.

Lemma elem_of_fee_iterator (s : store) (gte limit : Z) (e : Z * fee_row) :
  e ∈ fee_iterator s gte limit → feeIndex s !! e.1 = Some e.2 ∧ gte ≤ e.1.
Proof.
  unfold fee_iterator. intros (i & Hi & _)%elem_of_take.
  apply list_elem_of_lookup_2, list_elem_of_filter in Hi as [Hge He].
  rewrite sort_by_perm in He. destruct e as [h row].
  by apply elem_of_map_to_list in He.
Qed.

Lemma StronglySorted_weaken {A} (R R' : relation A) (l : list A) :
  (∀ x y, R x y → R' x y) → StronglySorted R l → StronglySorted R' l.
Proof.
  intros HR. induction 1 as [|x l Hs IH Hall]; constructor; [done|].
  eapply Forall_impl; [exact Hall|]. intros y. apply HR.
Qed.

Lemma fee_iterator_sorted (s : store) (gte limit : Z) :
  StronglySorted (λ a b : Z * fee_row, a.1 ≤ b.1) (fee_iterator s gte limit).
Proof.
  unfold fee_iterator.
  eapply StronglySorted_sublist; [apply sublist_take|].
  eapply StronglySorted_sublist; [apply sublist_filter|].
  eapply StronglySorted_weaken; [|apply sort_by_sorted].
  - intros x y Hxy. simpl in Hxy. lia.
  - intros x y. simpl. lia.
  - intros x y z. simpl. lia.
Qed.

(** X26. With a Tip record at height H and n ≥ 0, [fees(n)] answers with
    at most n rows, in ascending order of height; each is a row of
    FeeIndex as stored, at a height of at least H - (n - 1). *)
Theorem fees_window (s : store) (n : Z) (t : tip_row) :
  tipRow s = Some t →
  0 ≤ n →
  ∃ rows,
    fees s n = Returns rows
    ∧ Z.of_nat (length rows) ≤ n
    ∧ StronglySorted (λ a b, fe_height a ≤ fe_height b) rows
    ∧ ∀ r, r ∈ rows →
        feeIndex s !! fe_height r
          = Some {| fee_fees := fe_fees r; fee_size := fe_size r |}
        ∧ tip_height t - (n - 1) ≤ fe_height r.
Proof.
  intros Htip Hn. unfold fees. rewrite Htip. eexists. split; [reflexivity|].
  split_and!.
  - rewrite length_fmap. unfold fee_iterator. rewrite length_take. lia.
  - apply StronglySorted_fmap with (R1 := λ a b : Z * fee_row, a.1 ≤ b.1).
    + by intros x y.
    + apply fee_iterator_sorted.
  - intros r (e & -> & He)%list_elem_of_fmap.
    apply elem_of_fee_iterator in He as [Hrow Hge]. cbn [fe_height fe_fees fe_size].
    split; [|done]. rewrite Hrow. by destruct e as [h []].
Qed.

Lemma fees_window_witness :
  ∃ rows,
    fees Scenario.s1 2 = Returns rows
    ∧ Z.of_nat (length rows) ≤ 2
    ∧ StronglySorted (λ a b, fe_height a ≤ fe_height b) rows
    ∧ ∀ r, r ∈ rows →
        feeIndex Scenario.s1 !! fe_height r
          = Some {| fee_fees := fe_fees r; fee_size := fe_size r |}
        ∧ 1 - (2 - 1) ≤ fe_height r.
Proof.
  apply (fees_window Scenario.s1 2 (TipRow "b1" 1)).
  - reflexivity.
  - lia.
Defined.

(** ** The order of a scan *)

Lemma lex_lt_trans (c_ab c_bc c_ac d_ab d_bc d_ac : comparison) :
  (c_ab = Lt → c_bc = Lt → c_ac = Lt) →
  (c_ab = Eq → c_ac = c_bc) →
  (c_bc = Eq → c_ac = c_ab) →
  (d_ab = Lt → d_bc = Lt → d_ac = Lt) →
  lex c_ab d_ab = Lt → lex c_bc d_bc = Lt → lex c_ac d_ac = Lt.
Proof.
  intros Hlt Hl Hr Hd.
  destruct c_ab, c_bc; simpl; intros Hab Hbc; try discriminate.
  - rewrite Hl by done. simpl. auto.
  - rewrite Hl by done. done.
  - rewrite Hr by done. done.
  - rewrite Hlt by done. done.
Qed.

Lemma lex_antisym (c c' d d' : comparison) :
  c' = CompOpp c → d' = CompOpp d → lex c' d' = CompOpp (lex c d).
Proof. intros -> ->. by destruct c. Qed.

Lemma lex_eq (c d : comparison) : lex c d = Eq → c = Eq ∧ d = Eq.
Proof. by destruct c. Qed.

Lemma ascii_compare_lt_trans (a b c : Ascii.ascii) :
  Ascii.compare a b = Lt → Ascii.compare b c = Lt → Ascii.compare a c = Lt.
Proof. unfold Ascii.compare. rewrite !N.compare_lt_iff. lia. Qed.

Lemma string_compare_cons (a b : Ascii.ascii) (x y : string) :
  String.compare (String a x) (String b y)
  = lex (Ascii.compare a b) (String.compare x y).
Proof. simpl. by destruct (Ascii.compare a b). Qed.

Lemma string_compare_lt_trans (x y z : string) :
  String.compare x y = Lt → String.compare y z = Lt →
  String.compare x z = Lt.
Proof.
  revert y z. induction x as [|a x IH]; intros [|b y] [|c z]; try done.
  rewrite !string_compare_cons. apply lex_lt_trans.
  - apply ascii_compare_lt_trans.
  - by intros ->%Ascii.compare_eq_iff.
  - by intros ->%Ascii.compare_eq_iff.
  - apply IH.
Qed.

Lemma sc_key_compare_lex (a b : sc_key) :
  sc_key_compare a b
  = lex (String.compare a.1.1.1 b.1.1.1)
      (lex (a.1.1.2 ?= b.1.1.2)
         (lex (String.compare a.1.2 b.1.2) (a.2 ?= b.2))).
Proof.
  destruct a as [[[sa ha] ta] va], b as [[[sb hb] tb] vb]. simpl.
  by destruct (String.compare sa sb), (ha ?= hb), (String.compare ta tb).
Qed.

Lemma sc_key_compare_lt_trans (a b c : sc_key) :
  sc_key_compare a b = Lt → sc_key_compare b c = Lt →
  sc_key_compare a c = Lt.
Proof.
  rewrite !sc_key_compare_lex. apply lex_lt_trans.
  - apply string_compare_lt_trans.
  - by intros ->%String.compare_eq_iff.
  - by intros ->%String.compare_eq_iff.
  - apply lex_lt_trans.
    + rewrite !Z.compare_lt_iff. lia.
    + by intros ->%Z.compare_eq.
    + by intros ->%Z.compare_eq.
    + apply lex_lt_trans.
      * apply string_compare_lt_trans.
      * by intros ->%String.compare_eq_iff.
      * by intros ->%String.compare_eq_iff.
      * rewrite !Z.compare_lt_iff. lia.
Qed.

Lemma sc_key_compare_antisym (a b : sc_key) :
  sc_key_compare b a = CompOpp (sc_key_compare a b).
Proof.
  rewrite !sc_key_compare_lex.
  repeat apply lex_antisym;
    first [apply String.compare_antisym | apply Z.compare_antisym].
Qed.

Lemma sc_key_compare_eq (a b : sc_key) : sc_key_compare a b = Eq → a = b.
Proof.
  rewrite sc_key_compare_lex.
  intros (H1 & (H2 & (H3 & H4)%lex_eq)%lex_eq)%lex_eq.
  apply String.compare_eq_iff in H1, H3. apply Z.compare_eq in H2, H4.
  destruct a as [[[? ?] ?] ?], b as [[[? ?] ?] ?]. simpl in *. congruence.
Qed.

Lemma sc_key_leb_total (a b : sc_key) :
  sc_key_leb a b = true ∨ sc_key_leb b a = true.
Proof.
  unfold sc_key_leb. rewrite (sc_key_compare_antisym a b).
  destruct (sc_key_compare a b); auto.
Qed.

Lemma sc_key_leb_trans (a b c : sc_key) :
  sc_key_leb a b = true → sc_key_leb b c = true → sc_key_leb a c = true.
Proof.
  unfold sc_key_leb.
  destruct (sc_key_compare a b) eqn:Hab; [|..|done].
  - apply sc_key_compare_eq in Hab as ->. done.
  - destruct (sc_key_compare b c) eqn:Hbc; [| |done].
    + apply sc_key_compare_eq in Hbc as ->. by rewrite Hab.
    + by rewrite (sc_key_compare_lt_trans a b c).
Qed.

Lemma StronglySorted_with {A} (R : relation A) (P : A → Prop) (l : list A) :
  StronglySorted R l → Forall P l →
  StronglySorted (λ x y, R x y ∧ P x ∧ P y) l.
Proof.
  induction 1 as [|x l Hs IH Hall]; intros HP; [constructor|].
  apply Forall_cons in HP as [Hx HP]. constructor; [by apply IH|].
  rewrite Forall_forall in Hall, HP. apply Forall_forall. intros y Hy.
  split_and!; [by apply Hall|done|by apply HP].
Qed.

Lemma sc_key_leb_height (a b : sc_key) :
  sc_key_leb a b = true → a.1.1.1 = b.1.1.1 → a.1.1.2 ≤ b.1.1.2.
Proof.
  unfold sc_key_leb. rewrite sc_key_compare_lex. intros Hle Heq.
  rewrite Heq, string_compare_refl in Hle. cbn [lex] in Hle.
  destruct (Z.compare_spec a.1.1.2 b.1.1.2); [lia|lia|done].
Qed.

Lemma walked_sorted (s : store) (scId : string) (height limit : Z) :
  StronglySorted (λ a b : sc_key, a.1.1.2 ≤ b.1.1.2)
    (walked s scId height limit).
Proof.
  eapply StronglySorted_weaken;
    [|apply (StronglySorted_with (λ a b, sc_key_leb a b = true)
               (λ k : sc_key, k.1.1.1 = scId))].
  - intros a b (Hle & Ha & Hb). apply sc_key_leb_height; congruence.
  - unfold walked, sc_iterator.
    eapply StronglySorted_sublist; [apply sublist_take|].
    eapply StronglySorted_sublist; [apply sublist_filter|].
    apply sort_by_sorted; [apply sc_key_leb_total|apply sc_key_leb_trans].
  - apply Forall_forall. intros k Hk. by apply elem_of_walked in Hk as (_ & ? & _).
Qed.

(** X27. [__txosListByScriptId] answers with its txos in ascending order
    of height, for every form of the limit. *)
Theorem txosList_ascending (s : store) (scId : string) (height : Z)
    (limit : limit_arg) :
  StronglySorted (λ a b, ref_height a ≤ ref_height b)
    (__txosListByScriptId s scId height limit).1.
Proof.
  destruct (txosList_walk s scId height limit) as (lim & offset & -> & _).
  apply StronglySorted_fmap with (R1 := λ a b : sc_key, a.1.1.2 ≤ b.1.1.2).
  - by intros [[[? ?] ?] ?] [[[? ?] ?] ?].
  - eapply StronglySorted_sublist; [apply sublist_drop|].
    apply walked_sorted.
Qed.

(** ** Labels and block ids *)

(** X28. [addLabel] with a successful commit leaves the label in the
    label index and every other label as it was: deleting and putting the
    key in one batch amounts to putting it, so adding a label twice is
    adding it once; with a failed commit the index is unchanged and the
    error is handed on. *)
Theorem addLabel_adds (lbIndex : gmap (string * string) unit)
    (scId label : string) :
  addLabel None lbIndex scId label = (<[(scId, label) := ()]> lbIndex, None)
  ∧ (addLabel None lbIndex scId label).1 !! (scId, label) = Some ()
  ∧ (∀ k, k ≠ (scId, label) →
       (addLabel None lbIndex scId label).1 !! k = lbIndex !! k)
  ∧ addLabel None (addLabel None lbIndex scId label).1 scId label
    = addLabel None lbIndex scId label
  ∧ (∀ e, addLabel (Some e) lbIndex scId label = (lbIndex, Some e)).
Proof.
  assert (addLabel None lbIndex scId label
          = (<[(scId, label) := ()]> lbIndex, None)) as Heq.
  { unfold addLabel. cbn [foldl apply_label_op].
    by rewrite insert_delete_eq. }
  split_and!; [done|..|done].
  - rewrite Heq. cbn [fst]. apply lookup_insert_eq.
  - intros k Hk. rewrite Heq. cbn [fst]. by rewrite lookup_insert_ne.
  - rewrite Heq. cbn [fst]. unfold addLabel. cbn [foldl apply_label_op].
    by rewrite insert_delete_eq, insert_insert_eq.
Qed.

(** X29. [blockIdByTransactionId] hands on the error of a failed read of
    TxIndex. When the read succeeds: for a transaction of a block that a
    committed CONNECT has indexed, it asks the node for the id at the
    block's height and answers with whatever the node reports, an error
    included; for a txId without TxIndex row it answers with an absent
    value without asking the node. *)
Theorem blockIdByTransactionId_after_connect
    (blockIdAtHeight : Z → result string) (row_read_fails : string → bool) :
  (∀ (rpc : string → result block) (read_fails : string → Z → bool)
     (fee_commit : option error) (s : store) (blockId : string) (b : block)
     (tx : transaction),
     rpc blockId = Ok b →
     tx ∈ transactions b →
     row_read_fails (txId tx) = false →
     blockIdByTransactionId blockIdAtHeight row_read_fails
       (out_store
          (connect rpc read_fails None fee_commit s blockId (blk_height b)))
       (txId tx)
     = match blockIdAtHeight (blk_height b) with
       | Ok id => Ok (Some id)
       | Err e => Err e
       end)
  ∧ (∀ (s : store) (t : string),
       row_read_fails t = false →
       txIndex s !! t = None →
       blockIdByTransactionId blockIdAtHeight row_read_fails s t = Ok None)
  ∧ (∀ (s : store) (t : string),
       row_read_fails t = true →
       blockIdByTransactionId blockIdAtHeight row_read_fails s t
       = Err KvFailure).
Proof.
  unfold blockIdByTransactionId. split_and!.
  - intros rpc read_fails fee_commit s blockId b tx Hrpc Htx ->.
    pose proof (connect_puts_tx_row rpc read_fails fee_commit s blockId b tx
                  Hrpc Htx) as Hrow.
    unfold blockHeightByTransactionId in Hrow. rewrite Hrow.
    by destruct (blockIdAtHeight (blk_height b)).
  - by intros s t -> ->.
  - by intros s t ->.
Qed.

Lemma blockIdByTransactionId_after_connect_witness :
  blockIdByTransactionId
    (λ h, if decide (h = 1) then Err (RpcFailure "height 1") else Ok "b0")
    (λ t, bool_decide (t = "tx9"))
    (out_store (connect Scenario.rpc reads_ok None None Scenario.s0 "b1" 1))
    "tx1"
  = Err (RpcFailure "height 1")
  ∧ blockIdByTransactionId
      (λ h, if decide (h = 1) then Err (RpcFailure "height 1") else Ok "b0")
      (λ t, bool_decide (t = "tx9"))
      Scenario.s0 "tx1"
    = Ok None
  ∧ blockIdByTransactionId
      (λ h, if decide (h = 1) then Err (RpcFailure "height 1") else Ok "b0")
      (λ t, bool_decide (t = "tx9"))
      Scenario.s0 "tx9"
    = Err KvFailure.
Proof.
  destruct (blockIdByTransactionId_after_connect
              (λ h, if decide (h = 1) then Err (RpcFailure "height 1")
                    else Ok "b0")
              (λ t, bool_decide (t = "tx9")))
    as (Hknown & Hunknown & Hfailed).
  split_and!.
  - apply (Hknown Scenario.rpc reads_ok None Scenario.s0 "b1" Scenario.b1
             Scenario.tx1); [reflexivity|simpl; by left|reflexivity].
  - apply Hunknown; reflexivity.
  - apply Hfailed; reflexivity.
Defined.

(** ** Connecting a block again *)

Lemma store_ext (s1 s2 : store) :
  (∀ k, read s1 k = read s2 k) → s1 = s2.
Proof.
  intros Hread.
  destruct s1 as [t1 tx1 txo1 sp1 sc1 fee1], s2 as [t2 tx2 txo2 sp2 sc2 fee2].
  f_equal.
  - specialize (Hread KTip). simpl in Hread.
    destruct t1, t2; simpl in *; congruence.
  - apply map_eq. intros k. specialize (Hread (KTx k)). simpl in Hread.
    destruct (tx1 !! k), (tx2 !! k); simpl in *; congruence.
  - apply map_eq. intros k. specialize (Hread (KTxo k)). simpl in Hread.
    destruct (txo1 !! k), (txo2 !! k); simpl in *; congruence.
  - apply map_eq. intros k. specialize (Hread (KSpent k)). simpl in Hread.
    destruct (sp1 !! k), (sp2 !! k); simpl in *; congruence.
  - apply map_eq. intros k. specialize (Hread (KSc k)). simpl in Hread.
    destruct (sc1 !! k) as [[]|], (sc2 !! k) as [[]|]; simpl in *;
      congruence.
  - apply map_eq. intros k. specialize (Hread (KFee k)). simpl in Hread.
    destruct (fee1 !! k), (fee2 !! k); simpl in *; congruence.
Qed.

Lemma read_apply_batch_indep (ops : list op) (s s' : store) (k : op_key) :
  k ∈ key_of <$> ops →
  read (apply_batch s ops) k = read (apply_batch s' ops) k.
Proof.
  revert s s'. induction ops as [|o ops IH]; intros s s' Hk.
  - by apply elem_of_nil in Hk.
  - rewrite !apply_batch_cons.
    destruct (decide (k ∈ key_of <$> ops)) as [Hin|Hnotin]; [by apply IH|].
    rewrite fmap_cons in Hk. apply elem_of_cons in Hk as [->|Hk]; [|done].
    by rewrite !read_apply_batch_untouched, !read_apply_op_eq.
Qed.

Lemma inAccum_ext (read_fails : string → Z → bool) (s s' : store)
    (inputs : list input) (acc : number) :
  txoIndex s = txoIndex s' →
  inAccum read_fails s inputs acc = inAccum read_fails s' inputs acc.
Proof.
  intros Heq. revert acc. induction inputs as [|i l IH]; intros acc; [done|].
  simpl. rewrite Heq. destruct (coinbase i); [done|].
  destruct (read_fails _ _); [done|]. by destruct (txoIndex s' !! _).
Qed.

Lemma feeRates_ext (read_fails : string → Z → bool) (s s' : store)
    (txs : list transaction) :
  txoIndex s = txoIndex s' →
  feeRates read_fails s txs = feeRates read_fails s' txs.
Proof.
  intros Heq. induction txs as [|tx l IH]; [done|].
  simpl. unfold feeRate.
  by rewrite IH, (inAccum_ext read_fails s s' _ _ Heq).
Qed.

Lemma fee_key_or_not (k : op_key) : (∃ h, k = KFee h) ∨ (∀ h, k ≠ KFee h).
Proof. destruct k; eauto; by right. Qed.

(** X30. CONNECT is idempotent: with both commits succeeding, connecting
    the same block again on the store the first call left gives the same
    outcome as the first call: the same store, callback arguments and
    events. *)
Theorem connect_idempotent (rpc : string → result block)
    (read_fails : string → Z → bool) (s : store)
    (blockId : string) (height : Z) :
  connect rpc read_fails None None
    (out_store (connect rpc read_fails None None s blockId height)) blockId height
  = connect rpc read_fails None None s blockId height.
Proof.
  unfold connect. destruct (rpc blockId) as [b|e] eqn:Hrpc; [|done].
  case_decide as Hh; [done|].
  pose proof (connect_log_puts blockId height b) as Hputs.
  destruct (connect_log blockId height b) as [atomic events].
  cbn [fst] in Hputs. cbn [write].
  assert (∀ s' : store,
            (∀ k, (∀ h, k ≠ KFee h) → read s' k = read (apply_batch s atomic) k) →
            ∀ k, (∀ h, k ≠ KFee h) →
              read (apply_batch s' atomic) k = read (apply_batch s atomic) k)
    as Hprim.
  { intros s' Hs' k Hk.
    destruct (decide (k ∈ key_of <$> atomic)) as [Hin|Hnotin].
    - by apply read_apply_batch_indep.
    - rewrite read_apply_batch_untouched by done. by apply Hs'. }
  assert (∀ s' : store, ∀ h,
            read (apply_batch s' atomic) (KFee h) = read s' (KFee h)) as Hfee.
  { intros s' h. apply read_apply_batch_untouched.
    intros (o & Hkey & Ho)%list_elem_of_fmap.
    rewrite Forall_forall in Hputs.
    destruct (Hputs o Ho) as [_ Hnofee]. by apply (Hnofee h). }
  unfold connect2ndOrder.
  destruct (feeRates read_fails (apply_batch s atomic) (transactions b))
    as [rates|e] eqn:Hrates; cbn [mbind result_bind write out_store].
  - set (s1 := apply_batch s atomic) in *.
    set (row := {| fee_fees := box (sort_ascending rates);
                   fee_size := blk_size b |}).
    set (s2 := apply_batch s1 [PutFee (blk_height b) row]).
    assert (apply_batch s2 atomic = s2) as Hs2.
    { apply store_ext. intros k.
      destruct (fee_key_or_not k) as [[h ->]|Hk']; [apply Hfee|].
      rewrite Hprim; [|intros k' Hk''|done].
      - unfold s2. rewrite read_apply_batch_untouched; [done|].
        intros [->|?%elem_of_nil]%elem_of_cons; [|done]. by apply (Hk' (blk_height b)).
      - unfold s2. rewrite read_apply_batch_untouched; [done|].
        intros [->|?%elem_of_nil]%elem_of_cons; [|done].
        by apply (Hk'' (blk_height b)). }
    rewrite Hs2.
    rewrite (feeRates_ext read_fails s2 s1) by done. rewrite Hrates.
    cbn [mbind result_bind write out_store]. f_equal.
    unfold s2, apply_batch. cbn [foldl apply_op feeIndex tipRow txIndex
      txoIndex spentIndex scIndex]. fold row.
    by rewrite insert_insert_eq.
  - set (s1 := apply_batch s atomic) in *.
    assert (apply_batch s1 atomic = s1) as Hs1.
    { apply store_ext. intros k.
      destruct (fee_key_or_not k) as [[h ->]|Hk]; [apply Hfee|].
      by apply Hprim. }
    rewrite Hs1, Hrates. done.
Qed.
